(** * The C interface of the ARL wrapper (arlwrap.h)

    The header declares the structures that cross the boundary between a C
    caller and the numerical backend, and the prototypes of the entry points.
    This development embeds the declarations as data (C types, structure
    declarations, prototypes), gives them the meaning the x86-64 System V ABI
    and the C language give them (sizes, alignments, offsets; what a callee may
    write through a pointer parameter), and proves the properties of the
    interface on that embedding. *)

From stdpp Require Import base option list strings numbers pretty.
From Stdlib Require Import ZArith Lia Strings.Byte.

Local Open Scope string_scope.
Local Open Scope Z_scope.

(** ** C types as the header writes them *)

Module CTypes.

(** [Const] qualifies the pointee of a pointer: [const ARLVis *visin]. *)
Inductive qual : Type := Mutable | Const.

Inductive ctype : Type :=
| TVoid
| TBool                         (* bool of stdbool.h *)
| TChar
| TInt
| TLongLong                     (* long long int *)
| TSizeT                        (* size_t *)
| TFloat
| TDouble
| TFloatComplex                 (* float complex of complex.h *)
| TNamed (name : string)        (* a typedef of the header: ARLVis, Image, ... *)
| TPtr (q : qual) (t : ctype)   (* pointer to a [q]-qualified [t] *)
| TArray (t : ctype) (n : nat). (* t x[n] *)

#[global] Instance qual_eq_dec : EqDecision qual.
Proof. solve_decision. Defined.

#[global] Instance ctype_eq_dec : EqDecision ctype.
Proof. solve_decision. Defined.

Record field : Type := Field { fld_name : string; fld_type : ctype }.

Record struct_decl : Type := Struct { s_name : string; s_fields : list field }.

(** A parameter of a prototype; the header leaves some of them unnamed. *)
Record param : Type := Param { p_name : option string; p_type : ctype }.

Record prototype : Type :=
  Proto { f_name : string; f_ret : ctype; f_params : list param }.

#[global] Instance field_eq_dec : EqDecision field.
Proof. solve_decision. Defined.

#[global] Instance param_eq_dec : EqDecision param.
Proof. solve_decision. Defined.

(** Sizes and alignments of the LP64 data model (x86-64 System V), the one the
    wrapper is built for: [int] and [float] are 32 bits wide, [double],
    [size_t], [long long] and pointers 64 bits; a [float complex] is two
    floats and aligned as one. [void] and a typedef used by value have no size
    here (the header has no structure nested in another by value). *)
Fixpoint sizeof (t : ctype) : option Z :=
  match t with
  | TVoid | TNamed _ => None
  | TBool | TChar => Some 1
  | TInt | TFloat => Some 4
  | TLongLong | TSizeT | TDouble | TFloatComplex => Some 8
  | TPtr _ _ => Some 8
  | TArray t n => s ← sizeof t; Some (s * Z.of_nat n)
  end.

Fixpoint alignof (t : ctype) : option Z :=
  match t with
  | TVoid | TNamed _ => None
  | TBool | TChar => Some 1
  | TInt | TFloat | TFloatComplex => Some 4
  | TLongLong | TSizeT | TDouble => Some 8
  | TPtr _ _ => Some 8
  | TArray t _ => alignof t
  end.

(** The least multiple of [a] that is at least [off]. *)
Definition align_up (off a : Z) : Z := (off + a - 1) / a * a.

(** A field once placed: where it starts and how many bytes it takes. *)
Record placed : Type :=
  Placed { pl_name : string; pl_type : ctype; pl_off : Z; pl_size : Z }.

(** Fields are placed in declaration order, each at the next offset that its
    alignment allows. The result carries the placed fields, the offset after
    the last one and the largest alignment met. *)
Fixpoint place (off al : Z) (fs : list field) : option (list placed * Z * Z) :=
  match fs with
  | [] => Some ([], off, al)
  | f :: fs =>
      sz ← sizeof (fld_type f);
      a ← alignof (fld_type f);
      let o := align_up off a in
      '(ps, e, al') ← place (o + sz) (Z.max al a) fs;
      Some (Placed (fld_name f) (fld_type f) o sz :: ps, e, al')
  end.

(** The layout of a structure: its placed fields and its size, the end of the
    last field rounded up to the structure's alignment. *)
Definition struct_layout (s : struct_decl) : option (list placed * Z) :=
  '(ps, e, al) ← place 0 1 (s_fields s);
  Some (ps, align_up e al).

Definition struct_size (s : struct_decl) : option Z :=
  snd <$> struct_layout s.

(** Bytes of a structure that belong to no field. *)
Definition padding (s : struct_decl) : option Z :=
  '(ps, sz) ← struct_layout s;
  Some (sz - foldr (λ p acc, pl_size p + acc) 0 ps).

(** A callee can write the caller's object only through a pointer whose
    pointee is not const-qualified; everything else is passed by value or is
    read-only. *)
Definition writable (p : param) : bool :=
  match p_type p with
  | TPtr Mutable _ => true
  | _ => false
  end.

(** Is the parameter a pointer (const or not) to the typedef [name]? *)
Definition points_to (name : string) (p : param) : bool :=
  match p_type p with
  | TPtr _ (TNamed n) => bool_decide (n = name)
  | _ => false
  end.

Definition takes (name : string) (f : prototype) : bool :=
  existsb (points_to name) (f_params f).

(** The positions of the parameters of [f] that point to the typedef [name]. *)
Definition positions (name : string) (f : prototype) : list nat :=
  omap (λ '(i, p), if points_to name p then Some i else None)
       (imap (λ i p, (i, p)) (f_params f)).

End CTypes.
Export CTypes.

(** ** The declarations of arlwrap.h *)

Module Header.

Definition struct_ARLVis : struct_decl :=
  Struct "ARLVis"
    [ Field "nvis" TSizeT;
      Field "npol" TInt;
      Field "data" (TPtr Mutable TVoid);
      Field "phasecentre" (TPtr Mutable TChar) ].

Definition struct_ARLVisEntryP4 : struct_decl :=
  Struct "ARLVisEntryP4"
    [ Field "uvw" (TArray TDouble 3);
      Field "time" TDouble;
      Field "freq" TDouble;
      Field "bw" TDouble;
      Field "intgt" TDouble;
      Field "a1" TInt;
      Field "a2" TInt;
      Field "vis" (TArray TFloatComplex 4);
      Field "wght" (TArray TFloat 4);
      Field "imgwght" (TArray TFloat 4) ].

Definition struct_ARLGt : struct_decl :=
  Struct "ARLGt"
    [ Field "nrows" TSizeT;
      Field "data" (TPtr Mutable TVoid) ].

Definition struct_Image : struct_decl :=
  Struct "Image"
    [ Field "size" TSizeT;
      Field "data_shape" (TArray TInt 4);
      Field "data" (TPtr Mutable TVoid);
      Field "wcs" (TPtr Mutable TChar);
      Field "polarisation_frame" (TPtr Mutable TChar) ].

Definition struct_ARLConf : struct_decl :=
  Struct "ARLConf"
    [ Field "confname" (TPtr Mutable TChar);
      Field "pc_ra" TDouble;
      Field "pc_dec" TDouble;
      Field "times" (TPtr Mutable TDouble);
      Field "ntimes" TInt;
      Field "freqs" (TPtr Mutable TDouble);
      Field "nfreqs" TInt;
      Field "channel_bandwidth" (TPtr Mutable TDouble);
      Field "nchanwidth" TInt;
      Field "nbases" TInt;
      Field "nant" TInt;
      Field "npol" TInt;
      Field "nrec" TInt;
      Field "rmax" TDouble;
      Field "polframe" (TPtr Mutable TChar) ].

Definition struct_ant_t : struct_decl :=
  Struct "ant_t" [ Field "nant" TInt; Field "nbases" TInt ].

Definition struct_ARLadvice : struct_decl :=
  Struct "ARLadvice"
    [ Field "vis_slices" TInt;
      Field "npixel" TInt;
      Field "cellsize" TDouble;
      Field "guard_band_image" TDouble;
      Field "delA" TDouble;
      Field "wprojection_planes" TInt ].

(** Shorthands for the parameter types the prototypes use. *)
Definition in_ptr (name : string) : ctype := TPtr Const (TNamed name).
Definition io_ptr (name : string) : ctype := TPtr Mutable (TNamed name).
Definition named (x : string) (t : ctype) : param := Param (Some x) t.
Definition unnamed (t : ctype) : param := Param None t.

Definition proto_arl_copy_visibility : prototype :=
  Proto "arl_copy_visibility" TVoid
    [ named "visin" (in_ptr "ARLVis");
      named "visout" (io_ptr "ARLVis");
      named "zero" TBool ].

Definition proto_helper_get_image_shape : prototype :=
  Proto "helper_get_image_shape" TVoid
    [ named "frequency" (TPtr Const TDouble);
      named "cellsize" TDouble;
      named "shape" (TPtr Mutable TInt) ].

Definition proto_helper_get_image_shape_multifreq : prototype :=
  Proto "helper_get_image_shape_multifreq" TVoid
    [ named "lowconf" (io_ptr "ARLConf");
      named "cellsize" TDouble;
      named "npixel" TInt;
      named "shape" (TPtr Mutable TInt) ].

Definition proto_helper_get_nbases : prototype :=
  Proto "helper_get_nbases" TVoid
    [ unnamed (TPtr Mutable TChar);
      unnamed (io_ptr "ant_t") ].

Definition proto_helper_set_image_params : prototype :=
  Proto "helper_set_image_params" TVoid
    [ named "vis" (in_ptr "ARLVis");
      named "image" (io_ptr "Image") ].

Definition proto_arl_create_visibility : prototype :=
  Proto "arl_create_visibility" TVoid
    [ named "lowconf" (io_ptr "ARLConf");
      named "res_vis" (io_ptr "ARLVis") ].

Definition proto_arl_create_blockvisibility : prototype :=
  Proto "arl_create_blockvisibility" TVoid
    [ named "lowconf" (io_ptr "ARLConf");
      named "res_vis" (io_ptr "ARLVis") ].

Definition proto_arl_advise_wide_field : prototype :=
  Proto "arl_advise_wide_field" TVoid
    [ named "lowconf" (io_ptr "ARLConf");
      named "res_vis" (io_ptr "ARLVis");
      named "adv" (io_ptr "ARLadvice") ].

Definition proto_arl_create_test_image : prototype :=
  Proto "arl_create_test_image" TVoid
    [ named "frequency" (TPtr Const TDouble);
      named "cellsize" TDouble;
      named "phasecentre" (TPtr Mutable TChar);
      named "res_img" (io_ptr "Image") ].

Definition proto_arl_create_low_test_image_from_gleam : prototype :=
  Proto "arl_create_low_test_image_from_gleam" TVoid
    [ named "lowconf" (io_ptr "ARLConf");
      named "cellsize" TDouble;
      named "npixel" TInt;
      named "phasecentre" (TPtr Mutable TChar);
      named "res_img" (io_ptr "Image") ].

Definition proto_arl_predict_2d : prototype :=
  Proto "arl_predict_2d" TVoid
    [ named "visin" (in_ptr "ARLVis");
      named "img" (in_ptr "Image");
      named "visout" (io_ptr "ARLVis") ].

Definition proto_arl_invert_2d : prototype :=
  Proto "arl_invert_2d" TVoid
    [ named "visin" (in_ptr "ARLVis");
      named "img_in" (in_ptr "Image");
      named "dopsf" TBool;
      named "out" (io_ptr "Image");
      named "sumwt" (TPtr Mutable TDouble) ].

Definition proto_arl_create_image_from_visibility : prototype :=
  Proto "arl_create_image_from_visibility" TVoid
    [ named "vis" (in_ptr "ARLVis");
      named "model" (io_ptr "Image") ].

Definition proto_arl_create_image_from_blockvisibility : prototype :=
  Proto "arl_create_image_from_blockvisibility" TVoid
    [ named "lowconf" (io_ptr "ARLConf");
      named "blockvis" (in_ptr "ARLVis");
      named "cellsize" TDouble;
      named "npixel" TInt;
      named "phasecentre" (TPtr Mutable TChar);
      named "model" (io_ptr "Image") ].

Definition proto_arl_deconvolve_cube : prototype :=
  Proto "arl_deconvolve_cube" TVoid
    [ named "dirty" (io_ptr "Image");
      named "psf" (io_ptr "Image");
      named "restored" (io_ptr "Image");
      named "residual" (io_ptr "Image") ].

Definition proto_arl_restore_cube : prototype :=
  Proto "arl_restore_cube" TVoid
    [ named "model" (io_ptr "Image");
      named "psf" (io_ptr "Image");
      named "residual" (io_ptr "Image");
      named "restored" (io_ptr "Image") ].

Definition proto_arl_predict_function : prototype :=
  Proto "arl_predict_function" TVoid
    [ named "lowconf" (io_ptr "ARLConf");
      named "visin" (in_ptr "ARLVis");
      named "img" (in_ptr "Image");
      named "visout" (io_ptr "ARLVis");
      named "blockvisout" (io_ptr "ARLVis");
      named "cindexout" (TPtr Mutable TLongLong) ].

(** Line 120 of the header; line 125 declares the same function again, without
    parameter names. *)
Definition proto_arl_invert_function : prototype :=
  Proto "arl_invert_function" TVoid
    [ named "lowconf" (io_ptr "ARLConf");
      named "visin" (in_ptr "ARLVis");
      named "img_model" (io_ptr "Image");
      named "vis_slices" TInt;
      named "img_dirty" (io_ptr "Image") ].

Definition proto_arl_ical : prototype :=
  Proto "arl_ical" TVoid
    [ named "lowconf" (io_ptr "ARLConf");
      named "visin" (in_ptr "ARLVis");
      named "img_model" (io_ptr "Image");
      named "vis_slices" TInt;
      named "img_deconv" (io_ptr "Image");
      named "img_resid" (io_ptr "Image");
      named "img_rest" (io_ptr "Image") ].

Definition proto_arl_convert_visibility_to_blockvisibility : prototype :=
  Proto "arl_convert_visibility_to_blockvisibility" TVoid
    [ named "lowconf" (io_ptr "ARLConf");
      named "visin" (in_ptr "ARLVis");
      named "blockvisin" (in_ptr "ARLVis");
      named "cindexin" (TPtr Mutable TLongLong);
      named "visout" (io_ptr "ARLVis") ].

Definition proto_arl_create_gaintable_from_blockvisibility : prototype :=
  Proto "arl_create_gaintable_from_blockvisibility" TVoid
    [ named "lowconf" (io_ptr "ARLConf");
      named "visin" (in_ptr "ARLVis");
      named "gtout" (io_ptr "ARLGt") ].

Definition proto_arl_predict_function_blockvis : prototype :=
  Proto "arl_predict_function_blockvis" TVoid
    [ unnamed (io_ptr "ARLConf");
      unnamed (io_ptr "ARLVis");
      unnamed (in_ptr "Image") ].

Definition proto_arl_invert_function_again : prototype :=
  Proto "arl_invert_function" TVoid
    [ unnamed (io_ptr "ARLConf");
      unnamed (in_ptr "ARLVis");
      unnamed (io_ptr "Image");
      unnamed TInt;
      unnamed (io_ptr "Image") ].

Definition proto_arl_simulate_gaintable : prototype :=
  Proto "arl_simulate_gaintable" TVoid
    [ unnamed (io_ptr "ARLConf");
      named "gt" (io_ptr "ARLGt") ].

Definition proto_arl_apply_gaintable : prototype :=
  Proto "arl_apply_gaintable" TVoid
    [ named "lowconf" (io_ptr "ARLConf");
      named "visin" (in_ptr "ARLVis");
      named "gtin" (io_ptr "ARLGt");
      named "visout" (io_ptr "ARLVis") ].

(** [void arl_initialize(void)]: no parameter. *)
Definition proto_arl_initialize : prototype :=
  Proto "arl_initialize" TVoid [].

(** Every prototype of the header, in the order of its lines. *)
Definition prototypes : list prototype :=
  [ proto_arl_copy_visibility;
    proto_helper_get_image_shape;
    proto_helper_get_image_shape_multifreq;
    proto_helper_get_nbases;
    proto_helper_set_image_params;
    proto_arl_create_visibility;
    proto_arl_create_blockvisibility;
    proto_arl_advise_wide_field;
    proto_arl_create_test_image;
    proto_arl_create_low_test_image_from_gleam;
    proto_arl_predict_2d;
    proto_arl_invert_2d;
    proto_arl_create_image_from_visibility;
    proto_arl_create_image_from_blockvisibility;
    proto_arl_deconvolve_cube;
    proto_arl_restore_cube;
    proto_arl_predict_function;
    proto_arl_invert_function;
    proto_arl_ical;
    proto_arl_convert_visibility_to_blockvisibility;
    proto_arl_create_gaintable_from_blockvisibility;
    proto_arl_predict_function_blockvis;
    proto_arl_invert_function_again;
    proto_arl_simulate_gaintable;
    proto_arl_apply_gaintable;
    proto_arl_initialize ].

(** The two entry points whose result is a new Gain Table Container. *)
Definition gaintable_creators : list prototype :=
  [ proto_arl_simulate_gaintable;
    proto_arl_create_gaintable_from_blockvisibility ].

End Header.
Export Header.

(** ** Calls through the boundary *)

Module Call.
Section WithObjects.
(** The contents of an argument object, whatever they are. *)
Context {V : Type}.

(** The bodies of the entry points live in the numerical backend. A body is
    any function from the contents of the argument objects to their contents
    after the call. What the caller observes is decided by the prototype: an
    object passed through a pointer to non-const may have been rewritten, an
    object passed by value or through a pointer to const keeps its contents.
    Every entry point returns [void], so the call yields nothing else. The
    objects are taken one by one and apart from one another: what lies behind
    a pointer field of an object, and an object passed twice, are the matter
    of [deep_call] further down. *)
Definition call (f : prototype) (body : list V → list V) (args : list V)
  : list V :=
  imap (λ i old,
          match f_params f !! i, body args !! i with
          | Some p, Some new => if writable p then new else old
          | _, _ => old
          end) args.

(** The positions of [f]'s parameters through which it can write. *)
Definition outputs (f : prototype) : list nat :=
  omap (λ '(i, p), if writable p then Some i else None)
       (imap (λ i p, (i, p)) (f_params f)).
End WithObjects.
End Call.
Export Call.

(** ** The contents of the containers *)

Module Data.

(** A C [double] and a C [float] are carried as their IEEE-754 bit patterns:
    the interface moves them and never computes with them. The pattern 0 is
    the number +0.0. *)
Definition float64 : Type := Z.
Definition float32 : Type := Z.

(** [float complex]: real part, imaginary part. *)
Record complex64 : Type := Complex { re : float32; im : float32 }.

(** One visibility sample. With four values in [vis], [wght] and [imgwght]
    this is the header's [ARLVisEntryP4]; the header's comment asks for "the
    equivalent of 2 or 1 polarisation" for the other counts. *)
Record ARLVisEntry : Type := VisEntry {
  uvw : list float64;
  time : float64;
  freq : float64;
  bw : float64;
  intgt : float64;
  a1 : Z;
  a2 : Z;
  vis : list complex64;
  wght : list float32;
  imgwght : list float32
}.

(** [ARLVis]. [data] is [None] for a null pointer and otherwise the records the
    buffer holds, read as the entry type that [npol] selects. *)
Record ARLVis : Type := Vis {
  nvis : Z;
  npol : Z;
  data : option (list ARLVisEntry);
  phasecentre : string
}.

(** [Image]; the pixel buffer is opaque to the interface. *)
Record Image : Type := Img {
  img_size : Z;
  data_shape : list Z;
  img_data : option (list float64);
  wcs : string;
  polarisation_frame : string
}.

(** [ARLConf]; each array pointer is carried as the array it points to. *)
Record ARLConf : Type := Conf {
  confname : string;
  pc_ra : float64;
  pc_dec : float64;
  times : list float64;
  ntimes : Z;
  freqs : list float64;
  nfreqs : Z;
  channel_bandwidth : list float64;
  nchanwidth : Z;
  conf_nbases : Z;
  conf_nant : Z;
  conf_npol : Z;
  nrec : Z;
  rmax : float64;
  polframe : string
}.

(** [ant_t]. *)
Record ant_t : Type := Ant { nant : Z; nbases : Z }.

#[global] Instance complex64_eq_dec : EqDecision complex64.
Proof. solve_decision. Defined.

#[global] Instance ARLVisEntry_eq_dec : EqDecision ARLVisEntry.
Proof. solve_decision. Defined.

(** The header declares the record for four polarisations and asks for "the
    equivalent of 2 or 1 polarisation" for the other counts: the same record
    with [P] values in each field that carries one value per polarisation. *)
Definition struct_ARLVisEntry (P : nat) : struct_decl :=
  Struct ("ARLVisEntryP" +:+ pretty P)
    [ Field "uvw" (TArray TDouble 3);
      Field "time" TDouble;
      Field "freq" TDouble;
      Field "bw" TDouble;
      Field "intgt" TDouble;
      Field "a1" TInt;
      Field "a2" TInt;
      Field "vis" (TArray TFloatComplex P);
      Field "wght" (TArray TFloat P);
      Field "imgwght" (TArray TFloat P) ].

(** The sizes in bytes of the records for one and for two polarisations. The
    header does not declare these records, so their sizes are the backend's
    to say. *)
Record entry_sizes : Type := EntrySizes { size_p1 : Z; size_p2 : Z }.

(** The sizes of the equivalent records. *)
Definition equivalent_sizes : entry_sizes :=
  {| size_p1 := default 0 (struct_size (struct_ARLVisEntry 1));
     size_p2 := default 0 (struct_size (struct_ARLVisEntry 2)) |}.

(** The polarisation counts that select a record layout. *)
Definition valid_npol (P : Z) : bool :=
  bool_decide (P = 1) || bool_decide (P = 2) || bool_decide (P = 4).

(** The size in bytes of one record of a container with [P] polarisations:
    for four, the size of the header's [ARLVisEntryP4]. *)
Definition record_size (b : entry_sizes) (P : Z) : option Z :=
  if bool_decide (P = 4) then struct_size struct_ARLVisEntryP4
  else if bool_decide (P = 2) then Some (size_p2 b)
  else if bool_decide (P = 1) then Some (size_p1 b)
  else None.

(** An entry has the layout for [P] polarisations. *)
Definition entry_has_layout (P : Z) (e : ARLVisEntry) : bool :=
  bool_decide (length (uvw e) = 3%nat)
  && bool_decide (Z.of_nat (length (vis e)) = P)
  && bool_decide (Z.of_nat (length (wght e)) = P)
  && bool_decide (Z.of_nat (length (imgwght e)) = P).

(** The buffer is not null and holds exactly [nvis] records. *)
Definition has_records (v : ARLVis) : bool :=
  match data v with
  | Some l => bool_decide (Z.of_nat (length l) = nvis v)
  | None => false
  end.

(** The invariant of a Visibility Container: a polarisation count that selects
    a layout, and a buffer of exactly [nvis] records of that layout. *)
Definition vis_ok (v : ARLVis) : bool :=
  valid_npol (npol v)
  && has_records v
  && forallb (entry_has_layout (npol v)) (default [] (data v)).

(** The bytes the buffer of a container takes. *)
Definition buffer_bytes (b : entry_sizes) (v : ARLVis) : option Z :=
  l ← data v;
  sz ← record_size b (npol v);
  Some (Z.of_nat (length l) * sz).

(** The record whose every field is zero. *)
Definition zero_entry (P : Z) : ARLVisEntry :=
  {| uvw := replicate 3 0;
     time := 0; freq := 0; bw := 0; intgt := 0;
     a1 := 0; a2 := 0;
     vis := replicate (Z.to_nat P) (Complex 0 0);
     wght := replicate (Z.to_nat P) 0;
     imgwght := replicate (Z.to_nat P) 0 |}.

(** Field by field: [d] holds what [s] holds. *)
Definition same_fields (d s : ARLVisEntry) : Prop :=
  uvw d = uvw s ∧ time d = time s ∧ freq d = freq s ∧ bw d = bw s
  ∧ intgt d = intgt s ∧ a1 d = a1 s ∧ a2 d = a2 s
  ∧ vis d = vis s ∧ wght d = wght s ∧ imgwght d = imgwght s.

(** Field by field: [d] holds zeros, [P] of them in each per-polarisation
    field. *)
Definition zero_fields (P : Z) (d : ARLVisEntry) : Prop :=
  uvw d = [0; 0; 0] ∧ time d = 0 ∧ freq d = 0 ∧ bw d = 0 ∧ intgt d = 0
  ∧ a1 d = 0 ∧ a2 d = 0
  ∧ vis d = replicate (Z.to_nat P) (Complex 0 0)
  ∧ wght d = replicate (Z.to_nat P) 0
  ∧ imgwght d = replicate (Z.to_nat P) 0.

End Data.
Export Data.

(** ** The operations whose bodies the header does not carry *)

Module Model.

(** *** Copying a Visibility Container *)

(** Modelled from the spec: what the copy stores for a source record, the
    record itself or, when the zero flag is set, the zero record. *)
Definition stored (zero : bool) (P : Z) (s : ARLVisEntry) : ARLVisEntry :=
  if zero then zero_entry P else s.

(** Modelled from the spec: the per-sample loop of the copy. For [i] below the
    sample count, record [i] of the destination receives what is stored for
    record [i] of the source. Reading past the end of the source stops the
    loop; writing past the end of the destination stores nothing. *)
Fixpoint copy_records (zero : bool) (P : Z) (src : list ARLVisEntry)
    (i n : nat) (dst : list ARLVisEntry) : list ARLVisEntry :=
  match n with
  | O => dst
  | S n =>
      match src !! i with
      | Some s => copy_records zero P src (S i) n (<[i := stored zero P s]> dst)
      | None => dst
      end
  end.

(** Modelled from the spec: the body of [arl_copy_visibility], which the
    header only declares. Section 4.1: the copy takes a source container and a
    destination container already sized to match and either deep-copies every
    per-sample field (weights and image-weights included) or, when the zero
    flag is set, duplicates shape and metadata and writes zero sample payloads.
    A null buffer on either side is the fatal condition of section 7. *)
Definition arl_copy_visibility (visin visout : ARLVis) (zero : bool)
  : option ARLVis :=
  src ← data visin;
  dst ← data visout;
  Some {| nvis := nvis visin;
          npol := npol visin;
          data := Some (copy_records zero (npol visin) src 0
                          (Z.to_nat (nvis visin)) dst);
          phasecentre := phasecentre visin |}.

(** *** Constructing a Visibility Container *)

(** The largest value of a [size_t]. *)
Definition SIZE_MAX : Z := 2 ^ 64 - 1.

(** Modelled from the spec: a sample count is valid for [P] polarisations
    when it is not negative and the buffer it asks for, [N] records of the
    size for [P], can be requested at all. *)
Definition valid_count (b : entry_sizes) (N P : Z) : bool :=
  match record_size b P with
  | Some sz => bool_decide (0 ≤ N) && bool_decide (N * sz ≤ SIZE_MAX)
  | None => false
  end.

(** Modelled from the spec: the construction of a Visibility Container, whose
    body the header does not carry. Sections 3, 4.1 and 8: a producer sets
    the sample count and the polarisation count consistently with the buffer
    it allocates and chooses the record layout that matches the polarisation
    count; the records start out zeroed. A polarisation count other than 1, 2
    or 4, or a sample count that is not valid, is the fatal condition of
    section 7. *)
Definition create_visibility (b : entry_sizes) (N P : Z) (pc : string)
  : option ARLVis :=
  if valid_npol P && valid_count b N P
  then Some {| nvis := N;
               npol := P;
               data := Some (replicate (Z.to_nat N) (zero_entry P));
               phasecentre := pc |}
  else None.

(** *** Antennas and baselines *)

(** The pairs [(i, j)] of antennas with [i < j < n]. *)
Fixpoint antenna_pairs (n : nat) : list (nat * nat) :=
  match n with
  | O => []
  | S m => antenna_pairs m ++ map (λ i, (i, m)) (seq 0 m)
  end.

(** Modelled from the spec: the body of [helper_get_nbases], which the header
    only declares. Sections 4.3 and 8: the helper fills an auxiliary scalar
    descriptor from a configuration name, and the baseline count is the number
    of pairwise combinations of the antennas. [named_configuration] is the
    backend's table of array configurations, giving the antenna count of a
    name it knows; an unknown name is the fatal condition of section 7. *)
Definition helper_get_nbases (named_configuration : string → option Z)
    (name : string) (ant : ant_t) : option ant_t :=
  n ← named_configuration name;
  Some {| nant := n; nbases := n * (n - 1) / 2 |}.

End Model.
Export Model.

(** ** Sample values *)

Module Samples.

(** A sample with two polarisations; the numbers are bit patterns. *)
Definition entry_a : ARLVisEntry :=
  {| uvw := [4607182418800017408; 4611686018427387904; 0];
     time := 4613937818241073152; freq := 4726483295884279808;
     bw := 4696837146684686336; intgt := 4621819117588971520;
     a1 := 0; a2 := 1;
     vis := [Complex 1065353216 0; Complex 0 1073741824];
     wght := [1065353216; 1065353216];
     imgwght := [1056964608; 1048576000] |}.

Definition entry_b : ARLVisEntry :=
  {| uvw := [0; 4607182418800017408; 4611686018427387904];
     time := 4613937818241073152; freq := 4726483295884279808;
     bw := 4696837146684686336; intgt := 4621819117588971520;
     a1 := 1; a2 := 2;
     vis := [Complex 1073741824 1065353216; Complex 1065353216 1065353216];
     wght := [1056964608; 1065353216];
     imgwght := [1065353216; 1065353216] |}.

Definition vis_source : ARLVis :=
  {| nvis := 2; npol := 2; data := Some [entry_a; entry_b];
     phasecentre := "phase centre of the source" |}.

(** A destination sized for two samples of two polarisations, with stale
    contents and another phase centre. *)
Definition vis_destination : ARLVis :=
  {| nvis := 2; npol := 2; data := Some [entry_b; entry_b];
     phasecentre := "stale" |}.

(** A table of named array configurations with one three-antenna array. *)
Definition three_antennas (name : string) : option Z :=
  if decide (name = "TRIANGLE") then Some 3 else None.

Definition conf_triangle : ARLConf :=
  {| confname := "TRIANGLE"; pc_ra := 0; pc_dec := 0;
     times := [0]; ntimes := 1;
     freqs := [4726483295884279808]; nfreqs := 1;
     channel_bandwidth := [4696837146684686336]; nchanwidth := 1;
     conf_nbases := 0; conf_nant := 3; conf_npol := 1; nrec := 1;
     rmax := 4641240890982006784; polframe := "stokesI" |}.

End Samples.
Export Samples.

(** ** Applying a gain table *)

Module Calibration.

(** [ARLGt]; what the rows of its buffer mean is the backend's to say. *)
Record ARLGt : Type := Gt { nrows : Z; gt_data : option (list byte) }.

(** Modelled from the spec: what the apply operation stores for a sample.
    Section 4.4: the visibility samples are multiplied or divided by the
    corresponding solutions. [solve gt s k v] is the backend's arithmetic: the
    value [v] of polarisation [k] of the sample [s], corrected by the solution
    that the gain table [gt] holds for it. *)
Definition calibrated
    (solve : ARLGt → ARLVisEntry → nat → complex64 → complex64)
    (gt : ARLGt) (s : ARLVisEntry) : ARLVisEntry :=
  {| uvw := uvw s;
     time := time s; freq := freq s; bw := bw s; intgt := intgt s;
     a1 := a1 s; a2 := a2 s;
     vis := imap (solve gt s) (vis s);
     wght := wght s;
     imgwght := imgwght s |}.

(** Modelled from the spec: the per-sample loop of the apply operation. For
    [i] below the sample count, record [i] of the output receives the
    calibrated record [i] of the input. Reading past the end of the input
    stops the loop; writing past the end of the output stores nothing. *)
Fixpoint apply_records
    (solve : ARLGt → ARLVisEntry → nat → complex64 → complex64)
    (gt : ARLGt) (src : list ARLVisEntry) (i n : nat)
    (dst : list ARLVisEntry) : list ARLVisEntry :=
  match n with
  | O => dst
  | S n =>
      match src !! i with
      | Some s =>
          apply_records solve gt src (S i) n (<[i := calibrated solve gt s]> dst)
      | None => dst
      end
  end.

(** Modelled from the spec: the body of [arl_apply_gaintable], which the
    header only declares. Section 4.4: the operation consumes a Configuration
    Descriptor, an input Visibility Container and a Gain Table Container and
    writes the results into an output Visibility Container of matching shape.
    The caller hands in the output container; one that does not hold as many
    records as the input, or whose counts differ from the input's, or a null
    buffer, is the fatal condition of section 7. *)
Definition arl_apply_gaintable
    (solve : ARLGt → ARLVisEntry → nat → complex64 → complex64)
    (lowconf : ARLConf) (visin : ARLVis) (gtin : ARLGt) (visout : ARLVis)
  : option ARLVis :=
  src ← data visin;
  dst ← data visout;
  if has_records visin && has_records visout
     && bool_decide (nvis visout = nvis visin)
     && bool_decide (npol visout = npol visin)
  then Some {| nvis := nvis visout;
               npol := npol visout;
               data := Some (apply_records solve gtin src 0
                               (Z.to_nat (nvis visin)) dst);
               phasecentre := phasecentre visout |}
  else None.

(** Two samples of the same layout: as many values in each field. *)
Definition same_layout (a b : ARLVisEntry) : Prop :=
  length (uvw a) = length (uvw b)
  ∧ length (vis a) = length (vis b)
  ∧ length (wght a) = length (wght b)
  ∧ length (imgwght a) = length (imgwght b).

(** Two containers of matching shape: the same sample count, the same
    polarisation count, and buffers of as many records, record by record of
    the same layout. *)
Definition matching_shape (a b : ARLVis) : Prop :=
  nvis a = nvis b
  ∧ npol a = npol b
  ∧ ∃ la lb, data a = Some la ∧ data b = Some lb ∧ Forall2 same_layout la lb.

(** A gain table and a correction to try the operation on: the correction
    swaps the real and the imaginary part of the first polarisation and keeps
    the others. *)
Definition sample_gaintable : ARLGt := Gt 1 (Some []).
Definition sample_solve (gt : ARLGt) (s : ARLVisEntry) (k : nat)
    (v : complex64) : complex64 :=
  match k with
  | O => Complex (im v) (re v)
  | _ => v
  end.

End Calibration.
Export Calibration.

(** ** The header as a whole *)

Module Surface.


#[global] Instance prototype_eq_dec : EqDecision prototype.
Proof. solve_decision. Defined.



(** Two declarations that a C compiler takes for the same function: the same
    return type and the same parameter types, whatever the parameter names. *)
Definition same_signature (f g : prototype) : Prop :=
  f_ret f = f_ret g ∧ map p_type (f_params f) = map p_type (f_params g).

#[global] Instance same_signature_dec (f g : prototype) :
  Decision (same_signature f g).
Proof. unfold same_signature. apply _. Defined.


End Surface.
Export Surface.

(** ** Objects in memory *)

(** The header's comments say how the buffers are meant to be read: the
    [data] of an [ARLVis] with four polarisations "is equivalent to" an
    [ARLVisEntryP4[nvis]], and the layout is there to "allow re-use in numpy
    without any data copying". Reading typed objects out of bytes, and storing
    them, follows the layout: scalars are little-endian, fields lie at their
    offsets, records follow one another. *)

Module Memory.

(** The value of a byte, from 0 to 255, and the byte of a value taken modulo
    256. *)
Definition byte_val (b : byte) : Z := Z.of_N (Byte.to_N b).
Definition byte_of (z : Z) : byte :=
  default Byte.x00 (Byte.of_N (Z.to_N (z mod 256))).

(** x86-64 stores the least significant byte first. *)
Fixpoint le_encode (w : nat) (z : Z) : list byte :=
  match w with
  | O => []
  | S w => byte_of z :: le_encode w (z / 256)
  end.

Fixpoint le_decode (bs : list byte) : Z :=
  match bs with
  | [] => 0
  | b :: bs => byte_val b + 256 * le_decode bs
  end.

(** The number of values of [w] bytes. *)
Definition modulus (w : nat) : Z := 2 ^ (8 * Z.of_nat w).

(** Two's complement. *)
Definition to_signed (w : nat) (u : Z) : Z :=
  if bool_decide (2 * u < modulus w) then u else u - modulus w.

(** What an object holds: a scalar, carried as the integer or as the bit
    pattern it stores, or an array. *)
#[warnings="-register-all"] Inductive cvalue : Type :=
| VInt (z : Z)
| VArr (vs : list cvalue).

(** [int] and [long long] are signed; the other scalars are carried as
    unsigned patterns. *)
Definition signed (t : ctype) : bool :=
  match t with
  | TInt | TLongLong => true
  | _ => false
  end.

Definition scalar_width (t : ctype) : option nat :=
  match t with
  | TBool | TChar => Some 1%nat
  | TInt | TFloat => Some 4%nat
  | TLongLong | TSizeT | TDouble | TPtr _ _ => Some 8%nat
  | _ => None
  end.

(** The values a scalar of type [t] and width [w] can hold. *)
Definition in_range (t : ctype) (w : nat) (z : Z) : bool :=
  if signed t
  then bool_decide (- modulus w ≤ 2 * z < modulus w)
  else bool_decide (0 ≤ z < modulus w).

Definition read_scalar (t : ctype) (w : nat) (bs : list byte)
  : option cvalue :=
  if bool_decide (length bs = w)
  then Some (VInt (if signed t then to_signed w (le_decode bs)
                   else le_decode bs))
  else None.

Definition write_scalar (t : ctype) (w : nat) (v : cvalue)
  : option (list byte) :=
  match v with
  | VInt z => if in_range t w z then Some (le_encode w (z mod modulus w))
              else None
  | VArr _ => None
  end.

(** [n] consecutive pieces of [s] bytes. *)
Fixpoint chunks (n s : nat) (bs : list byte) : list (list byte) :=
  match n with
  | O => []
  | S n => take s bs :: chunks n s (drop s bs)
  end.

(** Reading an object of type [t] from exactly [sizeof t] bytes. A
    [float complex] is stored as its real part followed by its imaginary
    part, an array as its elements in order. *)
Fixpoint read_object (t : ctype) (bs : list byte) : option cvalue :=
  match t with
  | TVoid | TNamed _ => None
  | TFloatComplex =>
      if bool_decide (length bs = 8%nat)
      then r ← read_scalar TFloat 4 (take 4 bs);
           i ← read_scalar TFloat 4 (drop 4 bs);
           Some (VArr [r; i])
      else None
  | TArray t n =>
      s ← sizeof t;
      if bool_decide (Z.of_nat (length bs) = s * Z.of_nat n)
      then VArr <$> mapM (read_object t) (chunks n (Z.to_nat s) bs)
      else None
  | _ => w ← scalar_width t; read_scalar t w bs
  end.

(** Storing a value as an object of type [t]; [None] when the value is not
    one of the type. *)
Fixpoint write_object (t : ctype) (v : cvalue) : option (list byte) :=
  match t with
  | TVoid | TNamed _ => None
  | TFloatComplex =>
      match v with
      | VArr [r; i] =>
          a ← write_scalar TFloat 4 r;
          b ← write_scalar TFloat 4 i;
          Some (a ++ b)%list
      | _ => None
      end
  | TArray t n =>
      _ ← sizeof t;
      match v with
      | VArr vs =>
          if bool_decide (length vs = n)
          then mjoin <$> mapM (write_object t) vs
          else None
      | VInt _ => None
      end
  | _ => w ← scalar_width t; write_scalar t w v
  end.

Definition zeros (n : Z) : list byte := replicate (Z.to_nat n) Byte.x00.

(** Reading the fields of a structure from the bytes [bs] of the whole
    structure: each field is read at the offset at which [place] puts it. *)
Fixpoint read_fields (off : Z) (fs : list field) (bs : list byte)
  : option (list cvalue) :=
  match fs with
  | [] => Some []
  | f :: fs =>
      sz ← sizeof (fld_type f);
      a ← alignof (fld_type f);
      let o := align_up off a in
      v ← read_object (fld_type f) (take (Z.to_nat sz) (drop (Z.to_nat o) bs));
      vs ← read_fields (o + sz) fs bs;
      Some (v :: vs)
  end.

Definition read_struct (s : struct_decl) (bs : list byte)
  : option (list cvalue) :=
  sz ← struct_size s;
  if bool_decide (Z.of_nat (length bs) = sz)
  then read_fields 0 (s_fields s) bs
  else None.

(** Storing the fields of a structure into fresh bytes, from offset [off] on:
    the bytes up to the end of the last field, and that end. The padding of
    the fresh bytes is zeros; C gives padding no value, and storing the
    members into an object that exists leaves its padding as it was. *)
Fixpoint write_fields (off : Z) (fs : list field) (vs : list cvalue)
  : option (list byte * Z) :=
  match fs, vs with
  | [], [] => Some ([], off)
  | f :: fs, v :: vs =>
      sz ← sizeof (fld_type f);
      a ← alignof (fld_type f);
      let o := align_up off a in
      b ← write_object (fld_type f) v;
      '(rest, e) ← write_fields (o + sz) fs vs;
      Some ((zeros (o - off) ++ b ++ rest)%list, e)
  | _, _ => None
  end.

Definition write_struct (s : struct_decl) (vs : list cvalue)
  : option (list byte) :=
  sz ← struct_size s;
  '(bs, e) ← write_fields 0 (s_fields s) vs;
  Some (bs ++ zeros (sz - e))%list.

(** The buffer of a container read as an array of [n] records of the
    structure [s], and stored back. *)
Definition read_buffer (s : struct_decl) (n : nat) (bs : list byte)
  : option (list (list cvalue)) :=
  sz ← struct_size s;
  if bool_decide (Z.of_nat (length bs) = sz * Z.of_nat n)
  then mapM (read_struct s) (chunks n (Z.to_nat sz) bs)
  else None.

Definition write_buffer (s : struct_decl) (rs : list (list cvalue))
  : option (list byte) :=
  mjoin <$> mapM (write_struct s) rs.

(** The sizes of the placed fields, added up. *)
Definition sum_sizes (ps : list placed) : Z :=
  foldr (λ p acc, pl_size p + acc) 0 ps.

(** The offsets of a concrete layout, computed. *)
Ltac compute_offsets :=
  repeat match goal with
         | |- context [Z.to_nat ?z] =>
             let v := eval vm_compute in (Z.to_nat z) in
             change (Z.to_nat z) with v
         | |- context [align_up ?x ?a] =>
             let v := eval vm_compute in (align_up x a) in
             change (align_up x a) with v
         end.

(** The bytes of an [ARLVis] for two samples of four polarisations, piece by
    piece; the padding holds whatever was there. *)
Definition sample_nvis : list byte := le_encode 8 2.
Definition sample_npol : list byte := le_encode 4 4.
Definition sample_pad : list byte := [Byte.xde; Byte.xad; Byte.xbe; Byte.xef].
Definition sample_data : list byte := le_encode 8 6295552.
Definition sample_pc : list byte := le_encode 8 6299648.

(** Field values for an [ARLConf], in the order of its fields; pointers and
    doubles are bit patterns, the counts are ints and [nbases] is -1. *)
Definition seq_conf_values : list Z :=
  [ 6303744; 4607182418800017408; 4611686018427387904;
    6307840; 1; 6311936; 1; 6316032; 1;
    -1; 3; 1; 1; 4641240890982006784; 6320128 ].

End Memory.
Export Memory.

(** ** The caller's memory *)

(** [call] above looks at each argument object on its own. What C lets a body
    reach is more: the buffers behind the pointer fields of a structure it was
    handed, and an object handed in twice. Here the caller's memory is a heap
    of locations, a pointer is a location, and the prototype and the
    structure declarations decide which locations a body may write without
    casting const away. *)

Module Deep.

(** What a location holds: a structure of the header with the values of its
    fields (a pointer field holds the location it points to, 0 for a null
    pointer), or a buffer of bytes. *)
Inductive object : Type :=
| OStruct (s : struct_decl) (fields : list cvalue)
| OBuffer (bytes : list byte).

Definition heap : Type := nat → option object.

(** An argument: a scalar by value, or a pointer. *)
Inductive arg : Type :=
| AVal (z : Z)
| APtr (l : nat).

(** The locations the pointer fields of a structure point to, for the fields
    declared as pointers to non-const: every pointer field of the header is
    one ([void *data], [char *wcs], [double *times], ...). *)
Definition pointer_targets (s : struct_decl) (vals : list cvalue) : list nat :=
  omap (λ '(fd, v),
          match fld_type fd, v with
          | TPtr Mutable _, VInt a =>
              if bool_decide (0 < a) then Some (Z.to_nat a) else None
          | _, _ => None
          end) (zip (s_fields s) vals).

(** The buffers reached through the structure at [l], if there is one. *)
Definition reach (h : heap) (l : nat) : list nat :=
  match h l with
  | Some (OStruct s vals) => pointer_targets s vals
  | _ => []
  end.

(** The locations a body may write: the object behind each pointer to
    non-const, and the buffers reached through each structure it was handed,
    const-qualified or not, because the qualifier of a parameter covers the
    structure and not what its pointer fields point to. *)
Definition may_write (f : prototype) (args : list arg) (h : heap) : list nat :=
  mjoin (zip_with (λ p a,
                     match a with
                     | APtr l => (if writable p then [l] else []) ++ reach h l
                     | AVal _ => []
                     end)%list (f_params f) args).


(** A caller's memory for [arl_invert_2d]: the input visibility at 1 with its
    samples at 5 and its phase centre at 6, the input image at 2, the output
    image at 3, the sum of weights at 4. *)
Definition sample_record : list byte := le_encode 128 (2 ^ 1000 + 5).

Definition heap_invert : heap :=
  λ l, match l with
       | 1%nat => Some (OStruct struct_ARLVis [VInt 1; VInt 4; VInt 5; VInt 6])
       | 2%nat => Some (OStruct struct_Image
                          [ VInt 16; VArr [VInt 1; VInt 1; VInt 4; VInt 4];
                            VInt 7; VInt 8; VInt 9 ])
       | 3%nat => Some (OStruct struct_Image
                          [ VInt 16; VArr [VInt 1; VInt 1; VInt 4; VInt 4];
                            VInt 10; VInt 11; VInt 12 ])
       | 4%nat => Some (OBuffer (le_encode 8 0))
       | 5%nat => Some (OBuffer sample_record)
       | 6%nat | 8%nat | 9%nat | 11%nat | 12%nat =>
           Some (OBuffer (le_encode 16 0))
       | 7%nat | 10%nat => Some (OBuffer (le_encode 128 0))
       | _ => None
       end.

Definition args_invert : list arg :=
  [APtr 1; APtr 2; AVal 0; APtr 3; APtr 4].




End Deep.
Export Deep.

(** * Properties *)

(** ** Layout *)

Lemma align_up_bounds (off a : Z) :
  0 < a → off ≤ align_up off a < off + a.
Proof.
  intros Ha. unfold align_up.
  pose proof (Z.div_mod (off + a - 1) a) as Hdm.
  pose proof (Z.mod_pos_bound (off + a - 1) a Ha) as Hm.
  lia.
Qed.

Lemma align_up_divide (off a : Z) : (a | align_up off a).
Proof. unfold align_up. apply Z.divide_factor_r. Qed.

Lemma align_up_aligned (off a : Z) :
  0 < a → (a | off) → align_up off a = off.
Proof.
  intros Ha [k ->]. unfold align_up.
  replace (k * a + a - 1) with (a - 1 + k * a) by lia.
  rewrite Z.div_add by lia.
  rewrite Z.div_small by lia. lia.
Qed.

Lemma sizeof_nonneg (t : ctype) (sz : Z) : sizeof t = Some sz → 0 ≤ sz.
Proof.
  revert sz. induction t; intros sz H; simpl in H; simplify_option_eq; try lia.
  specialize (IHt _ eq_refl). lia.
Qed.

Lemma alignof_pos (t : ctype) (a : Z) : alignof t = Some a → 0 < a.
Proof.
  revert a. induction t; intros a H; simpl in H; simplify_option_eq; try lia.
  auto.
Qed.

(** Placed fields follow one another without overlap: each starts at or after
    the offset the placement started from, and the placement ends at or after
    the end of every field. *)
Lemma place_in_order (fs : list field) :
  ∀ off al ps e al',
    place off al fs = Some (ps, e, al') →
    off ≤ e ∧ Forall (λ p, off ≤ pl_off p ∧ pl_off p + pl_size p ≤ e) ps.
Proof.
  induction fs as [|f fs IH]; intros off al ps e al' H; simpl in H.
  - simplify_eq. split; [lia | constructor].
  - destruct (sizeof (fld_type f)) as [sz|] eqn:Hsz; [|done].
    destruct (alignof (fld_type f)) as [a|] eqn:Ha; [|done].
    simpl in H.
    destruct (place (align_up off a + sz) (Z.max al a) fs)
      as [[[ps0 e0] al0]|] eqn:Hp; [|done].
    simpl in H. simplify_eq.
    destruct (IH _ _ _ _ _ Hp) as [Hle Hall].
    pose proof (align_up_bounds off a (alignof_pos _ _ Ha)) as Hb.
    pose proof (sizeof_nonneg _ _ Hsz) as Hs.
    split; [lia|].
    constructor; simpl; [lia|].
    eapply Forall_impl; [exact Hall|]. simpl. intros p [? ?]. lia.
Qed.

(** Every placed field starts at a multiple of its alignment. *)
Lemma place_aligned (fs : list field) :
  ∀ off al ps e al',
    place off al fs = Some (ps, e, al') →
    Forall (λ p, ∃ a, alignof (pl_type p) = Some a ∧ (a | pl_off p)) ps.
Proof.
  induction fs as [|f fs IH]; intros off al ps e al' H; simpl in H.
  - simplify_eq. constructor.
  - destruct (sizeof (fld_type f)) as [sz|] eqn:Hsz; [|done].
    destruct (alignof (fld_type f)) as [a|] eqn:Ha; [|done].
    simpl in H.
    destruct (place (align_up off a + sz) (Z.max al a) fs)
      as [[[ps0 e0] al0]|] eqn:Hp; [|done].
    simpl in H. simplify_eq.
    constructor; [|by eapply IH].
    exists a. simpl. split; [done | apply align_up_divide].
Qed.

(** Placement keeps the declaration's order, names and types. *)
Lemma place_fields (fs : list field) :
  ∀ off al ps e al',
    place off al fs = Some (ps, e, al') →
    map (λ p, Field (pl_name p) (pl_type p)) ps = fs.
Proof.
  induction fs as [|f fs IH]; intros off al ps e al' H; simpl in H.
  - by simplify_eq.
  - destruct (sizeof (fld_type f)) as [sz|]; [|done].
    destruct (alignof (fld_type f)) as [a|]; [|done].
    simpl in H.
    destruct (place (align_up off a + sz) (Z.max al a) fs)
      as [[[ps0 e0] al0]|] eqn:Hp; [|done].
    simpl in H. simplify_eq. simpl.
    rewrite (IH _ _ _ _ _ Hp). by destruct f.
Qed.

(** C1. The 4-polarisation Visibility Entry record declares, in this order:
    3 doubles of baseline coordinates, one double each for time, frequency,
    bandwidth and integration time, two 32-bit ints of antenna indices, 4
    float complex visibilities, 4 float weights and 4 float image-weights.
    Under the ABI the fields take 24, 8, 8, 8, 8, 4, 4, 32, 16 and 16 bytes
    at offsets 0, 24, 32, 40, 48, 56, 60, 64, 96 and 112; the record takes 128
    bytes, none of them padding, so an array of such records is a flat
    sequence of the fields. *)
Theorem ARLVisEntryP4_layout :
  s_fields struct_ARLVisEntryP4 =
    [ Field "uvw" (TArray TDouble 3);
      Field "time" TDouble; Field "freq" TDouble;
      Field "bw" TDouble; Field "intgt" TDouble;
      Field "a1" TInt; Field "a2" TInt;
      Field "vis" (TArray TFloatComplex 4);
      Field "wght" (TArray TFloat 4);
      Field "imgwght" (TArray TFloat 4) ]
  ∧ struct_layout struct_ARLVisEntryP4 =
      Some ([ Placed "uvw" (TArray TDouble 3) 0 24;
              Placed "time" TDouble 24 8;
              Placed "freq" TDouble 32 8;
              Placed "bw" TDouble 40 8;
              Placed "intgt" TDouble 48 8;
              Placed "a1" TInt 56 4;
              Placed "a2" TInt 60 4;
              Placed "vis" (TArray TFloatComplex 4) 64 32;
              Placed "wght" (TArray TFloat 4) 96 16;
              Placed "imgwght" (TArray TFloat 4) 112 16 ], 128)
  ∧ padding struct_ARLVisEntryP4 = Some 0
  ∧ sizeof TDouble = Some 8
  ∧ sizeof TInt = Some 4
  ∧ sizeof TFloat = Some 4
  ∧ sizeof TFloatComplex = Some 8.
Proof.
  split; [reflexivity|].
  split; [vm_compute; reflexivity|].
  split; [vm_compute; reflexivity|].
  repeat split.
Qed.

(** ** What a call can change *)

Section CallFacts.
Context {V : Type}.
Implicit Types (f : prototype) (body : list V → list V) (args : list V).

Lemma call_length f body args : length (call f body args) = length args.
Proof. unfold call. apply length_imap. Qed.

(** An object passed by value or through a pointer to const comes back as it
    went in. *)
Lemma call_keeps f body args (i : nat) (p : param) :
  f_params f !! i = Some p → writable p = false →
  call f body args !! i = args !! i.
Proof.
  intros Hp Hw. unfold call. rewrite list_lookup_imap.
  destruct (args !! i) as [old|]; simpl; [|done].
  rewrite Hp. destruct (body args !! i); by rewrite ?Hw.
Qed.

(** An object passed through a pointer to non-const comes back with what the
    body stored in it. *)
Lemma call_stores f body args (i : nat) (p : param) (old : V) :
  f_params f !! i = Some p → writable p = true → args !! i = Some old →
  call f body args !! i = Some (default old (body args !! i)).
Proof.
  intros Hp Hw Ha. unfold call. rewrite list_lookup_imap, Ha. simpl.
  rewrite Hp. destruct (body args !! i); by rewrite ?Hw.
Qed.

Lemma elem_of_outputs f (i : nat) :
  i ∈ outputs f ↔ ∃ p, f_params f !! i = Some p ∧ writable p = true.
Proof.
  unfold outputs. rewrite list_elem_of_omap. split.
  - intros [[j p] [Hin Hsome]].
    apply list_elem_of_lookup in Hin as [k Hk].
    rewrite list_lookup_imap in Hk.
    destruct (f_params f !! k) as [q|] eqn:Hq; simpl in Hk; [|done].
    simplify_eq. destruct (writable p) eqn:Hw; [|done].
    simplify_eq. eauto.
  - intros (p & Hp & Hw). exists (i, p). split.
    + apply list_elem_of_lookup. exists i.
      by rewrite list_lookup_imap, Hp.
    + by rewrite Hw.
Qed.

(** Whatever the body does, the caller sees a change only in an object
    passed through a pointer to non-const. *)
Lemma call_changes_outputs_only f body args (i : nat) :
  call f body args !! i ≠ args !! i → i ∈ outputs f.
Proof.
  intros Hne. apply elem_of_outputs.
  destruct (f_params f !! i) as [p|] eqn:Hp.
  - exists p. split; [done|].
    destruct (writable p) eqn:Hw; [done|].
    exfalso. apply Hne. by eapply call_keeps.
  - exfalso. apply Hne. unfold call. rewrite list_lookup_imap.
    destruct (args !! i); simpl; [|done]. by rewrite Hp.
Qed.
End CallFacts.

(** C2. No entry point returns a status value: every prototype of the header
    is declared [void], so a call hands nothing back except through its
    parameters, and what it changes for the caller is confined to the objects
    passed through pointers to non-const. *)
Theorem entry_points_return_void :
  ∀ f : prototype,
    f ∈ prototypes →
    f_ret f = TVoid
    ∧ ∀ (V : Type) (body : list V → list V) (args : list V) (i : nat),
        call f body args !! i ≠ args !! i → i ∈ outputs f.
Proof.
  intros f Hin. split.
  - unfold prototypes in Hin.
    repeat (apply elem_of_cons in Hin as [-> | Hin]; [reflexivity|]).
    by apply elem_of_nil in Hin.
  - intros V body args i. apply call_changes_outputs_only.
Qed.

Lemma entry_points_return_void_witness :
  f_ret proto_arl_invert_2d = TVoid
  ∧ ∀ (V : Type) (body : list V → list V) (args : list V) (i : nat),
      call proto_arl_invert_2d body args !! i ≠ args !! i →
      i ∈ outputs proto_arl_invert_2d.
Proof.
  apply (entry_points_return_void proto_arl_invert_2d).
  unfold prototypes. do 11 apply list_elem_of_further. apply list_elem_of_here.
Defined.

(** ** Prediction and inversion *)

(** C9. [arl_predict_function_blockvis] has one Visibility Container
    parameter, a pointer to non-const, and no other: the caller finds the
    prediction in the container it passed. [arl_predict_2d] has two: the
    first, const-qualified, comes back as it went in, and the result is in the
    second, a different object. *)
Theorem predict_blockvis_in_place :
  map p_type (f_params proto_arl_predict_function_blockvis)
    = [io_ptr "ARLConf"; io_ptr "ARLVis"; in_ptr "Image"]
  ∧ positions "ARLVis" proto_arl_predict_function_blockvis = [1%nat]
  ∧ outputs proto_arl_predict_function_blockvis = [0%nat; 1%nat]
  ∧ map p_type (f_params proto_arl_predict_2d)
    = [in_ptr "ARLVis"; in_ptr "Image"; io_ptr "ARLVis"]
  ∧ positions "ARLVis" proto_arl_predict_2d = [0%nat; 2%nat]
  ∧ outputs proto_arl_predict_2d = [2%nat]
  ∧ ∀ (V : Type) (body : list V → list V),
      (∀ lowconf vis img : V,
         let args := [lowconf; vis; img] in
         let after := call proto_arl_predict_function_blockvis body args in
         after !! 1%nat = Some (default vis (body args !! 1%nat))
         ∧ after !! 2%nat = Some img)
      ∧ (∀ visin img visout : V,
           let args := [visin; img; visout] in
           let after := call proto_arl_predict_2d body args in
           after !! 0%nat = Some visin
           ∧ after !! 1%nat = Some img
           ∧ after !! 2%nat = Some (default visout (body args !! 2%nat))).
Proof.
  repeat (split; [reflexivity|]).
  intros V body. split.
  - intros lowconf vis img args after. subst after. split.
    + erewrite call_stores; reflexivity.
    + erewrite call_keeps; reflexivity.
  - intros visin img visout args after. subst after.
    split; [|split].
    + erewrite call_keeps; reflexivity.
    + erewrite call_keeps; reflexivity.
    + erewrite call_stores; reflexivity.
Qed.





Example invert_2d_reach :
  reach heap_invert 1 = [5%nat; 6%nat]
  ∧ reach heap_invert 2 = [7%nat; 8%nat; 9%nat]
  ∧ reach heap_invert 3 = [10%nat; 11%nat; 12%nat]
  ∧ reach heap_invert 4 = []
  ∧ may_write proto_arl_invert_2d args_invert heap_invert
    = [5; 6; 7; 8; 9; 3; 10; 11; 12; 4]%nat.
Proof. repeat split. Qed.

(** ** Copying a Visibility Container *)

Section CopyRecords.
Variables (zero : bool) (P : Z) (src : list ARLVisEntry).

Lemma copy_records_length (n i : nat) (dst : list ARLVisEntry) :
  length (copy_records zero P src i n dst) = length dst.
Proof.
  revert i dst. induction n as [|n IH]; intros i dst; simpl; [done|].
  destruct (src !! i); [|done].
  by rewrite IH, length_insert.
Qed.

(** Inside a source and a destination that are long enough, the loop
    rewrites the records [i .. i+n-1] and leaves the others. *)
Lemma copy_records_lookup (n i : nat) (dst : list ARLVisEntry) (j : nat) :
  (i + n ≤ length src)%nat → (i + n ≤ length dst)%nat →
  copy_records zero P src i n dst !! j
  = if decide (i ≤ j < i + n)%nat
    then stored zero P <$> src !! j else dst !! j.
Proof.
  revert i dst. induction n as [|n IH]; intros i dst Hs Hd; simpl.
  - case_decide; [lia | done].
  - destruct (lookup_lt_is_Some_2 src i ltac:(lia)) as [s Hsi].
    rewrite Hsi, IH by (rewrite ?length_insert; lia).
    destruct (decide (j = i)) as [->|Hji].
    + rewrite decide_False by lia. rewrite decide_True by lia.
      rewrite list_lookup_insert_eq by lia. by rewrite Hsi.
    + rewrite list_lookup_insert_ne by done.
      repeat case_decide; try done; lia.
Qed.

(** Over a destination as long as the source, the whole loop stores one
    record for each source record. *)
Lemma copy_records_all (dst : list ARLVisEntry) :
  length dst = length src →
  copy_records zero P src 0 (length src) dst = stored zero P <$> src.
Proof.
  intros Hlen. apply list_eq. intros j.
  rewrite copy_records_lookup by lia.
  rewrite list_lookup_fmap. case_decide as Hj; [done|].
  rewrite !lookup_ge_None_2 by lia. done.
Qed.
End CopyRecords.

Lemma zero_entry_zero_fields (P : Z) : zero_fields P (zero_entry P).
Proof. repeat split. Qed.

Lemma has_records_inv (v : ARLVis) :
  has_records v = true →
  ∃ l, data v = Some l ∧ Z.of_nat (length l) = nvis v.
Proof.
  unfold has_records. destruct (data v) as [l|]; [|done].
  intros H. apply bool_decide_eq_true in H. eauto.
Qed.

(** C3. Copying a source container into a destination pre-sized to the same
    sample and polarisation counts: with the zero flag unset every field of
    every destination record (weights and image-weights included) equals the
    field of the source record at the same index; with the zero flag set the
    counts and the phase centre are the source's and every field of every
    destination record is zero. *)
Theorem copy_visibility_spec (visin visout : ARLVis) :
  has_records visin = true → has_records visout = true →
  nvis visout = nvis visin → npol visout = npol visin →
  ∃ src copied zeroed lc lz,
    data visin = Some src
    ∧ arl_copy_visibility visin visout false = Some copied
    ∧ arl_copy_visibility visin visout true = Some zeroed
    ∧ data copied = Some lc ∧ data zeroed = Some lz
    ∧ (nvis copied = nvis visin ∧ npol copied = npol visin
       ∧ phasecentre copied = phasecentre visin
       ∧ Z.of_nat (length lc) = nvis visin)
    ∧ (nvis zeroed = nvis visin ∧ npol zeroed = npol visin
       ∧ phasecentre zeroed = phasecentre visin
       ∧ Z.of_nat (length lz) = nvis visin)
    ∧ ∀ i : nat, Z.of_nat i < nvis visin →
        ∃ s d z,
          src !! i = Some s ∧ lc !! i = Some d ∧ lz !! i = Some z
          ∧ same_fields d s ∧ zero_fields (npol visin) z.
Proof.
  intros Hin Hout Hn Hp.
  destruct (has_records_inv _ Hin) as (src & Hsrc & Hls).
  destruct (has_records_inv _ Hout) as (dst & Hdst & Hld).
  assert (Hlen : length dst = length src) by lia.
  assert (Hcount : Z.to_nat (nvis visin) = length src) by lia.
  exists src.
  unfold arl_copy_visibility. rewrite Hsrc, Hdst. simpl.
  rewrite Hcount, !copy_records_all by done.
  do 4 eexists.
  repeat (split; [reflexivity|]).
  rewrite !length_fmap.
  do 2 (split; [by repeat split|]).
  intros i Hi.
  destruct (lookup_lt_is_Some_2 src i ltac:(lia)) as [s Hs].
  exists s, s, (zero_entry (npol visin)).
  rewrite !list_lookup_fmap, Hs. simpl.
  repeat (split; [reflexivity|]).
  split; [by repeat split | apply zero_entry_zero_fields].
Qed.

Lemma copy_visibility_spec_witness :
  ∃ src copied zeroed lc lz,
    data vis_source = Some src
    ∧ arl_copy_visibility vis_source vis_destination false = Some copied
    ∧ arl_copy_visibility vis_source vis_destination true = Some zeroed
    ∧ data copied = Some lc ∧ data zeroed = Some lz
    ∧ (nvis copied = nvis vis_source ∧ npol copied = npol vis_source
       ∧ phasecentre copied = phasecentre vis_source
       ∧ Z.of_nat (length lc) = nvis vis_source)
    ∧ (nvis zeroed = nvis vis_source ∧ npol zeroed = npol vis_source
       ∧ phasecentre zeroed = phasecentre vis_source
       ∧ Z.of_nat (length lz) = nvis vis_source)
    ∧ ∀ i : nat, Z.of_nat i < nvis vis_source →
        ∃ s d z,
          src !! i = Some s ∧ lc !! i = Some d ∧ lz !! i = Some z
          ∧ same_fields d s ∧ zero_fields (npol vis_source) z.
Proof.
  apply (copy_visibility_spec vis_source vis_destination); reflexivity.
Defined.

Example copy_sample :
  arl_copy_visibility vis_source vis_destination false
  = Some (Vis 2 2 (Some [entry_a; entry_b]) "phase centre of the source")
  ∧ arl_copy_visibility vis_source vis_destination true
    = Some (Vis 2 2 (Some [zero_entry 2; zero_entry 2])
              "phase centre of the source").
Proof. split; reflexivity. Qed.

(** ** Constructing a Visibility Container *)

Lemma record_size_4 (b : entry_sizes) : record_size b 4 = Some 128.
Proof. vm_compute. reflexivity. Qed.

(** The equivalent record for four polarisations is the one the header
    declares; the equivalent records for one and two take 80 and 96 bytes. *)
Lemma struct_ARLVisEntry_sizes :
  struct_ARLVisEntry 4 = struct_ARLVisEntryP4
  ∧ equivalent_sizes = EntrySizes 80 96.
Proof. split; vm_compute; reflexivity. Qed.

Lemma valid_npol_inv (P : Z) : valid_npol P = true → P = 1 ∨ P = 2 ∨ P = 4.
Proof.
  unfold valid_npol. intros H.
  apply orb_true_iff in H as [H|H]; [apply orb_true_iff in H as [H|H]|];
    apply bool_decide_eq_true in H; auto.
Qed.

Lemma zero_entry_has_layout (P : Z) :
  0 ≤ P → entry_has_layout P (zero_entry P) = true.
Proof.
  intros HP. unfold entry_has_layout, zero_entry. simpl.
  rewrite !length_replicate, Z2Nat.id by done.
  by rewrite !bool_decide_eq_true_2.
Qed.

Lemma forallb_replicate {A} (f : A → bool) (n : nat) (x : A) :
  f x = true → forallb f (replicate n x) = true.
Proof. intros Hx. induction n as [|n IH]; simpl; [done | by rewrite Hx]. Qed.

(** C5. A container constructed with a valid sample count [N] and a
    polarisation count [P] of 1, 2 or 4 has a buffer that is not null and
    holds exactly [N] records of the layout [P] selects, [N] times the record
    size for [P] in bytes; for [P = 4] the record size is that of the header's
    4-polarisation Visibility Entry, 128 bytes. *)
Theorem create_visibility_buffer (b : entry_sizes) (N P : Z) (pc : string) :
  P = 1 ∨ P = 2 ∨ P = 4 →
  valid_count b N P = true →
  ∃ v l sz,
    create_visibility b N P pc = Some v
    ∧ nvis v = N ∧ npol v = P
    ∧ data v = Some l
    ∧ Z.of_nat (length l) = N
    ∧ Forall (λ e, entry_has_layout P e = true) l
    ∧ record_size b P = Some sz
    ∧ buffer_bytes b v = Some (N * sz)
    ∧ vis_ok v = true
    ∧ (P = 4 → struct_size struct_ARLVisEntryP4 = Some sz ∧ sz = 128).
Proof.
  intros HP Hvalid.
  assert (Hnpol : valid_npol P = true) by (by destruct HP as [->|[->| ->]]).
  assert (HP0 : 0 ≤ P) by lia.
  unfold valid_count in Hvalid.
  destruct (record_size b P) as [sz|] eqn:Hsz; [|done].
  apply andb_true_iff in Hvalid as [HN Hmax].
  apply bool_decide_eq_true in HN.
  exists (Vis N P (Some (replicate (Z.to_nat N) (zero_entry P))) pc),
    (replicate (Z.to_nat N) (zero_entry P)), sz.
  assert (Hlen : Z.of_nat (length (replicate (Z.to_nat N) (zero_entry P))) = N)
    by (rewrite length_replicate; lia).
  split.
  { unfold create_visibility, valid_count.
    rewrite Hnpol, Hsz. simpl.
    rewrite bool_decide_eq_true_2 by done. by rewrite Hmax. }
  repeat (split; [done|]).
  split.
  { apply Forall_replicate. by apply zero_entry_has_layout. }
  split; [done|].
  split.
  { unfold buffer_bytes. simpl. rewrite Hsz. simpl. by rewrite Hlen. }
  split.
  { unfold vis_ok, has_records. simpl.
    rewrite Hnpol, bool_decide_eq_true_2 by done. simpl.
    apply forallb_replicate. by apply zero_entry_has_layout. }
  intros ->. rewrite record_size_4 in Hsz. simplify_eq.
  split; [vm_compute|]; reflexivity.
Qed.

Lemma create_visibility_buffer_witness :
  ∃ v l sz,
    create_visibility equivalent_sizes 3 4 "centre" = Some v
    ∧ nvis v = 3 ∧ npol v = 4
    ∧ data v = Some l
    ∧ Z.of_nat (length l) = 3
    ∧ Forall (λ e, entry_has_layout 4 e = true) l
    ∧ record_size equivalent_sizes 4 = Some sz
    ∧ buffer_bytes equivalent_sizes v = Some (3 * sz)
    ∧ vis_ok v = true
    ∧ (4 = 4 → struct_size struct_ARLVisEntryP4 = Some sz ∧ sz = 128).
Proof.
  apply (create_visibility_buffer equivalent_sizes 3 4 "centre");
    [right; right; reflexivity | vm_compute; reflexivity].
Defined.

Example create_visibility_sizes :
  let b := equivalent_sizes in
  (buffer_bytes b <$> create_visibility b 5 1 "c") = Some (Some 400)
  ∧ (buffer_bytes b <$> create_visibility b 5 2 "c") = Some (Some 480)
  ∧ (buffer_bytes b <$> create_visibility b 5 4 "c") = Some (Some 640)
  ∧ (buffer_bytes b <$> create_visibility b 0 4 "c") = Some (Some 0)
  ∧ create_visibility b 5 3 "c" = None
  ∧ create_visibility b (-1) 4 "c" = None.
Proof. repeat split; vm_compute; reflexivity. Qed.

(** ** Gain tables *)

(** C6, as stated, fails: the simulation variant is one of the two entry points
    that create a Gain Table Container, and it takes no Visibility
    Container. *)
Lemma simulate_gaintable_takes_no_visibility :
  proto_arl_simulate_gaintable ∈ gaintable_creators
  ∧ takes "ARLConf" proto_arl_simulate_gaintable
    && takes "ARLVis" proto_arl_simulate_gaintable = false.
Proof. split; [apply list_elem_of_here | reflexivity]. Qed.

(** The apply loop, over an output as long as the input, stores one
    calibrated record for each input record. *)
Lemma apply_records_lookup
    (solve : ARLGt → ARLVisEntry → nat → complex64 → complex64) (gt : ARLGt)
    (src : list ARLVisEntry) (n i : nat) (dst : list ARLVisEntry) (j : nat) :
  (i + n ≤ length src)%nat → (i + n ≤ length dst)%nat →
  apply_records solve gt src i n dst !! j
  = if decide (i ≤ j < i + n)%nat
    then calibrated solve gt <$> src !! j else dst !! j.
Proof.
  revert i dst. induction n as [|n IH]; intros i dst Hs Hd; simpl.
  - case_decide; [lia | done].
  - destruct (lookup_lt_is_Some_2 src i ltac:(lia)) as [s Hsi].
    rewrite Hsi, IH by (rewrite ?length_insert; lia).
    destruct (decide (j = i)) as [->|Hji].
    + rewrite decide_False by lia. rewrite decide_True by lia.
      rewrite list_lookup_insert_eq by lia. by rewrite Hsi.
    + rewrite list_lookup_insert_ne by done.
      repeat case_decide; try done; lia.
Qed.

Lemma apply_records_all
    (solve : ARLGt → ARLVisEntry → nat → complex64 → complex64) (gt : ARLGt)
    (src dst : list ARLVisEntry) :
  length dst = length src →
  apply_records solve gt src 0 (length src) dst = calibrated solve gt <$> src.
Proof.
  intros Hlen. apply list_eq. intros j.
  rewrite apply_records_lookup by lia.
  rewrite list_lookup_fmap. case_decide as Hj; [done|].
  rewrite !lookup_ge_None_2 by lia. done.
Qed.

Lemma calibrated_same_layout
    (solve : ARLGt → ARLVisEntry → nat → complex64 → complex64) (gt : ARLGt)
    (s : ARLVisEntry) :
  same_layout (calibrated solve gt s) s.
Proof. unfold same_layout, calibrated. simpl. by rewrite length_imap. Qed.

(** What the apply operation does with an output of matching shape, and that
    it accepts no other. *)
Lemma apply_gaintable_shape
    (solve : ARLGt → ARLVisEntry → nat → complex64 → complex64)
    (lowconf : ARLConf) (visin : ARLVis) (gtin : ARLGt) (visout : ARLVis) :
  (has_records visin = true → has_records visout = true →
   nvis visout = nvis visin → npol visout = npol visin →
   is_Some (arl_apply_gaintable solve lowconf visin gtin visout))
  ∧ ∀ out,
      arl_apply_gaintable solve lowconf visin gtin visout = Some out →
      matching_shape out visin
      ∧ ∃ src, data visin = Some src
               ∧ data out = Some (calibrated solve gtin <$> src).
Proof.
  unfold arl_apply_gaintable. split.
  - intros Hin Hout Hn Hp.
    destruct (has_records_inv _ Hin) as (src & Hsrc & _).
    destruct (has_records_inv _ Hout) as (dst & Hdst & _).
    rewrite Hsrc, Hdst, Hin, Hout. simpl.
    rewrite !bool_decide_eq_true_2 by done. by eexists.
  - intros out H.
    destruct (data visin) as [src|] eqn:Hsrc; [|done].
    destruct (data visout) as [dst|] eqn:Hdst; [|done]. simpl in H.
    destruct (has_records visin) eqn:Hin; [|done].
    destruct (has_records visout) eqn:Hout; [|done]. simpl in H.
    case_bool_decide as Hn; [|done]. case_bool_decide as Hp; [|done].
    simpl in H. simplify_eq.
    unfold has_records in Hin, Hout. rewrite Hsrc in Hin. rewrite Hdst in Hout.
    apply bool_decide_eq_true in Hin, Hout.
    assert (Hlen : length dst = length src) by lia.
    assert (Hcount : Z.to_nat (nvis visin) = length src) by lia.
    rewrite Hcount, apply_records_all by done.
    split.
    + split; [done|]. split; [done|]. simpl.
      exists (calibrated solve gtin <$> src), src.
      split; [done|]. split; [done|].
      apply Forall2_fmap_l, Forall_Forall2_diag, Forall_forall.
      intros s _. apply calibrated_same_layout.
    + exists src. by split.
Qed.

(** C6, amended. Of the two entry points that create a Gain Table Container,
    the derivation from observed data takes a Configuration Descriptor and a
    (read-only) Visibility Container, and the simulation takes a Configuration
    Descriptor only; each writes the gain table through its [ARLGt] parameter.
    The apply operation takes a Configuration Descriptor, an input Visibility
    Container through a pointer to const, a Gain Table Container and an
    output Visibility Container, in which the caller finds what the body
    stored. It accepts an output container that holds as many records as the
    input and has the input's counts, and what it writes is a container of
    matching shape: the input's sample count and polarisation count, and for
    each input record a calibrated record of the same layout. *)
Theorem gaintable_operations :
  map p_type (f_params proto_arl_create_gaintable_from_blockvisibility)
    = [io_ptr "ARLConf"; in_ptr "ARLVis"; io_ptr "ARLGt"]
  ∧ takes "ARLConf" proto_arl_create_gaintable_from_blockvisibility
    && takes "ARLVis" proto_arl_create_gaintable_from_blockvisibility = true
  ∧ map p_type (f_params proto_arl_simulate_gaintable)
    = [io_ptr "ARLConf"; io_ptr "ARLGt"]
  ∧ takes "ARLConf" proto_arl_simulate_gaintable = true
  ∧ takes "ARLVis" proto_arl_simulate_gaintable = false
  ∧ Forall (λ f, ∃ i, positions "ARLGt" f = [i] ∧ i ∈ outputs f)
      gaintable_creators
  ∧ map p_type (f_params proto_arl_apply_gaintable)
    = [io_ptr "ARLConf"; in_ptr "ARLVis"; io_ptr "ARLGt"; io_ptr "ARLVis"]
  ∧ (∀ (V : Type) (body : list V → list V) (lowconf visin gtin visout : V),
       let args := [lowconf; visin; gtin; visout] in
       let after := call proto_arl_apply_gaintable body args in
       after !! 1%nat = Some visin
       ∧ after !! 3%nat = Some (default visout (body args !! 3%nat)))
  ∧ ∀ (solve : ARLGt → ARLVisEntry → nat → complex64 → complex64)
      (lowconf : ARLConf) (visin : ARLVis) (gtin : ARLGt) (visout : ARLVis),
      (has_records visin = true → has_records visout = true →
       nvis visout = nvis visin → npol visout = npol visin →
       is_Some (arl_apply_gaintable solve lowconf visin gtin visout))
      ∧ ∀ out,
          arl_apply_gaintable solve lowconf visin gtin visout = Some out →
          matching_shape out visin
          ∧ ∃ src, data visin = Some src
                   ∧ data out = Some (calibrated solve gtin <$> src).
Proof.
  repeat (split; [reflexivity|]).
  split.
  { repeat constructor.
    - exists 1%nat. split; [reflexivity|]. apply elem_of_outputs.
      eexists. split; reflexivity.
    - exists 2%nat. split; [reflexivity|]. apply elem_of_outputs.
      eexists. split; reflexivity. }
  split; [reflexivity|].
  split.
  - intros V body lowconf visin gtin visout args after. split.
    + subst after. erewrite call_keeps; reflexivity.
    + subst after. erewrite call_stores; reflexivity.
  - intros solve lowconf visin gtin visout. apply apply_gaintable_shape.
Qed.

Example apply_gaintable_sample :
  arl_apply_gaintable sample_solve conf_triangle vis_source sample_gaintable
    vis_destination
  = Some (Vis 2 2
            (Some [ calibrated sample_solve sample_gaintable entry_a;
                    calibrated sample_solve sample_gaintable entry_b ])
            "stale")
  ∧ vis (calibrated sample_solve sample_gaintable entry_a)
    = [Complex 0 1065353216; Complex 0 1073741824]
  ∧ arl_apply_gaintable sample_solve conf_triangle vis_source sample_gaintable
      (Vis 1 2 (Some [entry_b]) "short")
    = None
  ∧ arl_apply_gaintable sample_solve conf_triangle vis_source sample_gaintable
      (Vis 2 4 (Some [entry_b; entry_b]) "other counts")
    = None.
Proof. repeat split. Qed.

(** ** Antennas and baselines *)

Lemma antenna_pairs_double (n : nat) :
  2 * Z.of_nat (length (antenna_pairs n)) = Z.of_nat n * (Z.of_nat n - 1).
Proof.
  induction n as [|m IH]; simpl; [done|].
  rewrite length_app, length_map, length_seq. lia.
Qed.

(** The closed form counts the pairs. *)
Lemma antenna_pairs_count (n : nat) :
  Z.of_nat (length (antenna_pairs n)) = Z.of_nat n * (Z.of_nat n - 1) / 2.
Proof.
  rewrite <- antenna_pairs_double.
  rewrite Z.mul_comm, Z.div_mul; lia.
Qed.

(** Every pair is a baseline between two different antennas of the array,
    and no baseline is listed twice. *)
Lemma antenna_pairs_elem (n : nat) (i j : nat) :
  (i, j) ∈ antenna_pairs n ↔ (i < j < n)%nat.
Proof.
  induction n as [|m IH]; simpl.
  - rewrite elem_of_nil. lia.
  - rewrite elem_of_app, IH, list_elem_of_fmap. split.
    + intros [?|(k & Heq & Hk)]; [lia|].
      apply elem_of_seq in Hk. simplify_eq. lia.
    + intros [Hij Hj]. destruct (decide (j = m)) as [->|]; [right|left; lia].
      exists i. split; [done|]. apply elem_of_seq. lia.
Qed.

(** C8. The helper fills the scalar descriptor from the configuration name:
    with the antenna count of the named array it stores the number of
    pairwise antenna combinations, [nant * (nant - 1) / 2], a function of
    [nant] alone. For a descriptor with one time, one frequency and three
    antennas the baseline count is 3. *)
Theorem helper_get_nbases_pairs
    (named_configuration : string → option Z) (conf : ARLConf) (ant : ant_t) :
  named_configuration (confname conf) = Some (conf_nant conf) →
  0 ≤ conf_nant conf →
  ∃ r,
    helper_get_nbases named_configuration (confname conf) ant = Some r
    ∧ nant r = conf_nant conf
    ∧ nbases r = nant r * (nant r - 1) / 2
    ∧ nbases r = Z.of_nat (length (antenna_pairs (Z.to_nat (nant r))))
    ∧ (ntimes conf = 1 → nfreqs conf = 1 → conf_nant conf = 3 → nbases r = 3).
Proof.
  intros Hname Hn. unfold helper_get_nbases. rewrite Hname. simpl.
  eexists. split; [reflexivity|]. simpl.
  split; [done|]. split; [done|]. split.
  - rewrite antenna_pairs_count, Z2Nat.id by done. done.
  - intros _ _ ->. reflexivity.
Qed.

Lemma helper_get_nbases_pairs_witness :
  ∃ r,
    helper_get_nbases three_antennas (confname conf_triangle) (Ant 0 0)
    = Some r
    ∧ nant r = conf_nant conf_triangle
    ∧ nbases r = nant r * (nant r - 1) / 2
    ∧ nbases r = Z.of_nat (length (antenna_pairs (Z.to_nat (nant r))))
    ∧ (ntimes conf_triangle = 1 → nfreqs conf_triangle = 1 →
       conf_nant conf_triangle = 3 → nbases r = 3).
Proof.
  apply (helper_get_nbases_pairs three_antennas conf_triangle (Ant 0 0));
    [reflexivity | vm_compute; discriminate].
Defined.

Example helper_get_nbases_triangle :
  helper_get_nbases three_antennas "TRIANGLE" (Ant 0 0) = Some (Ant 3 3)
  ∧ helper_get_nbases three_antennas "UNKNOWN" (Ant 0 0) = None
  ∧ antenna_pairs 3 = [(0, 1); (0, 2); (1, 2)]%nat.
Proof. repeat split. Qed.

(** ** The Configuration Descriptor at the boundary *)

(** X9. Every entry point that takes a Configuration Descriptor takes it
    through a
    pointer to non-const, so the prototypes alone do not keep a body from
    writing to it; [helper_get_nbases] takes the configuration name and an
    [ant_t], and no Configuration Descriptor. *)
Remark configuration_passed_writable :
  Forall (λ f, Forall (λ i, i ∈ outputs f) (positions "ARLConf" f)) prototypes
  ∧ length (List.filter (takes "ARLConf") prototypes) = 15%nat
  ∧ takes "ARLConf" proto_helper_get_nbases = false.
Proof.
  split; [|split; reflexivity].
  unfold prototypes.
  repeat (apply Forall_cons; split; [vm_compute; repeat constructor|]).
  apply Forall_nil_2.
Qed.

(** * The rest of the header *)

(** ** The layouts of the other structures *)

(** X1. [ARLVis] takes 32 bytes: [nvis] at 0, [npol] at 8, [data] at 16 and
    [phasecentre] at 24; the 4 bytes after [npol] are padding. *)
Theorem ARLVis_layout :
  struct_layout struct_ARLVis =
    Some ([ Placed "nvis" TSizeT 0 8;
            Placed "npol" TInt 8 4;
            Placed "data" (TPtr Mutable TVoid) 16 8;
            Placed "phasecentre" (TPtr Mutable TChar) 24 8 ], 32)
  ∧ padding struct_ARLVis = Some 4.
Proof. split; vm_compute; reflexivity. Qed.

(** X2. [Image] takes 48 bytes, none of them padding: [size] at 0, the four
    ints of [data_shape] at 8, [data] at 24, [wcs] at 32 and
    [polarisation_frame] at 40. *)
Theorem Image_layout :
  struct_layout struct_Image =
    Some ([ Placed "size" TSizeT 0 8;
            Placed "data_shape" (TArray TInt 4) 8 16;
            Placed "data" (TPtr Mutable TVoid) 24 8;
            Placed "wcs" (TPtr Mutable TChar) 32 8;
            Placed "polarisation_frame" (TPtr Mutable TChar) 40 8 ], 48)
  ∧ padding struct_Image = Some 0.
Proof. split; vm_compute; reflexivity. Qed.

(** X3. [ARLConf] takes 104 bytes, 12 of them padding: each of [ntimes],
    [nfreqs] and [nrec] is an int followed by an 8-byte field, which leaves 4
    bytes unused after it; [nchanwidth], [nbases], [nant], [npol] and [nrec]
    are five ints in a row. *)
Theorem ARLConf_layout :
  struct_layout struct_ARLConf =
    Some ([ Placed "confname" (TPtr Mutable TChar) 0 8;
            Placed "pc_ra" TDouble 8 8;
            Placed "pc_dec" TDouble 16 8;
            Placed "times" (TPtr Mutable TDouble) 24 8;
            Placed "ntimes" TInt 32 4;
            Placed "freqs" (TPtr Mutable TDouble) 40 8;
            Placed "nfreqs" TInt 48 4;
            Placed "channel_bandwidth" (TPtr Mutable TDouble) 56 8;
            Placed "nchanwidth" TInt 64 4;
            Placed "nbases" TInt 68 4;
            Placed "nant" TInt 72 4;
            Placed "npol" TInt 76 4;
            Placed "nrec" TInt 80 4;
            Placed "rmax" TDouble 88 8;
            Placed "polframe" (TPtr Mutable TChar) 96 8 ], 104)
  ∧ padding struct_ARLConf = Some 12.
Proof. split; vm_compute; reflexivity. Qed.

(** X4. The small structures: [ARLGt] takes 16 bytes and [ant_t] 8, without
    padding; [ARLadvice] takes 40 bytes, the last 4 of them padding after
    [wprojection_planes]. *)
Theorem auxiliary_layouts :
  struct_layout struct_ARLGt =
    Some ([ Placed "nrows" TSizeT 0 8;
            Placed "data" (TPtr Mutable TVoid) 8 8 ], 16)
  ∧ padding struct_ARLGt = Some 0
  ∧ struct_layout struct_ant_t =
      Some ([ Placed "nant" TInt 0 4; Placed "nbases" TInt 4 4 ], 8)
  ∧ padding struct_ant_t = Some 0
  ∧ struct_layout struct_ARLadvice =
      Some ([ Placed "vis_slices" TInt 0 4;
              Placed "npixel" TInt 4 4;
              Placed "cellsize" TDouble 8 8;
              Placed "guard_band_image" TDouble 16 8;
              Placed "delA" TDouble 24 8;
              Placed "wprojection_planes" TInt 32 4 ], 40)
  ∧ padding struct_ARLadvice = Some 4.
Proof. repeat split; vm_compute; reflexivity. Qed.

(** ** The prototypes as a whole *)

(** A decidable property of every element of a list, decided by running over
    the list. *)
Lemma Forall_decided {A} (P : A → Prop) `{Hdec : !∀ x, Decision (P x)}
    (l : list A) :
  bool_decide (Forall P l) = true → ∀ x, x ∈ l → P x.
Proof.
  intros H x Hx. apply bool_decide_eq_true in H.
  by eapply Forall_forall in H.
Qed.

(** X5. The header declares no function twice with different types: two
    prototypes with the same name have the same return type and the same
    parameter types (the two declarations of [arl_invert_function] differ in
    the parameter names only). *)
Theorem redeclarations_agree (f g : prototype) :
  f ∈ prototypes → g ∈ prototypes → f_name f = f_name g →
  same_signature f g.
Proof.
  intros Hf Hg.
  assert (Hall : Forall (λ g, f_name f = f_name g → same_signature f g)
                   prototypes).
  { revert f Hf.
    apply (Forall_decided
             (λ f, Forall (λ g, f_name f = f_name g → same_signature f g)
                     prototypes)).
    vm_compute. reflexivity. }
  by eapply Forall_forall in Hall.
Qed.

Lemma redeclarations_agree_witness :
  same_signature proto_arl_invert_function proto_arl_invert_function_again.
Proof.
  apply (redeclarations_agree
           proto_arl_invert_function proto_arl_invert_function_again).
  - unfold prototypes. do 17 apply list_elem_of_further.
    apply list_elem_of_here.
  - unfold prototypes. do 22 apply list_elem_of_further.
    apply list_elem_of_here.
  - reflexivity.
Defined.


(** X7. Every entry point that takes a parameter has an output among its
    parameters; the only one without an output is [arl_initialize], which
    takes no parameter at all. *)
Theorem only_initialize_has_no_output (f : prototype) :
  f ∈ prototypes →
  (outputs f = [] ↔ f = proto_arl_initialize)
  ∧ (f_params f = [] ↔ f = proto_arl_initialize).
Proof.
  revert f.
  apply (Forall_decided
           (λ f, (outputs f = [] ↔ f = proto_arl_initialize)
                 ∧ (f_params f = [] ↔ f = proto_arl_initialize))).
  vm_compute. reflexivity.
Qed.

Lemma only_initialize_has_no_output_witness :
  (outputs proto_arl_create_visibility = []
   ↔ proto_arl_create_visibility = proto_arl_initialize)
  ∧ (f_params proto_arl_create_visibility = []
     ↔ proto_arl_create_visibility = proto_arl_initialize).
Proof.
  apply (only_initialize_has_no_output proto_arl_create_visibility).
  unfold prototypes. do 5 apply list_elem_of_further. apply list_elem_of_here.
Defined.

(** X8. Across the header, a parameter named [visin] is declared
    [const ARLVis *] and is never one of the entry point's outputs; a
    parameter named [visout] is declared [ARLVis *] and is one of them. *)
Theorem visin_const_visout_output (f : prototype) (i : nat) (p : param) :
  f ∈ prototypes → f_params f !! i = Some p →
  (p_name p = Some "visin" → p_type p = in_ptr "ARLVis" ∧ i ∉ outputs f)
  ∧ (p_name p = Some "visout" → p_type p = io_ptr "ARLVis" ∧ i ∈ outputs f).
Proof.
  intros Hf Hp.
  assert (Hall : Forall (λ p, (p_name p = Some "visin" →
                               p_type p = in_ptr "ARLVis")
                              ∧ (p_name p = Some "visout" →
                                 p_type p = io_ptr "ARLVis")) (f_params f)).
  { revert f Hf Hp.
    apply (Forall_decided
             (λ f, f_params f !! i = Some p →
                   Forall (λ p, (p_name p = Some "visin" →
                                 p_type p = in_ptr "ARLVis")
                                ∧ (p_name p = Some "visout" →
                                   p_type p = io_ptr "ARLVis"))
                     (f_params f))).
    apply bool_decide_eq_true_2.
    eapply Forall_impl; [|intros f H _; exact H].
    apply (bool_decide_eq_true_1 _). vm_compute. reflexivity. }
  eapply Forall_forall in Hall as [Hin Hout];
    [|by eapply list_elem_of_lookup_2].
  split.
  - intros Hn. specialize (Hin Hn). split; [done|].
    rewrite elem_of_outputs. intros (q & Hq & Hw).
    rewrite Hp in Hq. simplify_eq.
    unfold writable in Hw. by rewrite Hin in Hw.
  - intros Hn. specialize (Hout Hn). split; [done|].
    apply elem_of_outputs. exists p. split; [done|].
    unfold writable. by rewrite Hout.
Qed.

Lemma visin_const_visout_output_witness :
  (p_type (named "visin" (in_ptr "ARLVis")) = in_ptr "ARLVis"
   ∧ 0%nat ∉ outputs proto_arl_predict_2d)
  ∧ (p_type (named "visout" (io_ptr "ARLVis")) = io_ptr "ARLVis"
     ∧ 2%nat ∈ outputs proto_arl_predict_2d).
Proof.
  assert (Hf : proto_arl_predict_2d ∈ prototypes).
  { unfold prototypes. do 10 apply list_elem_of_further.
    apply list_elem_of_here. }
  split.
  - apply (visin_const_visout_output proto_arl_predict_2d 0
             (named "visin" (in_ptr "ARLVis")) Hf eq_refl).
    reflexivity.
  - apply (visin_const_visout_output proto_arl_predict_2d 2
             (named "visout" (io_ptr "ARLVis")) Hf eq_refl).
    reflexivity.
Defined.

(** X10. Inputs the prototypes leave writable: [arl_deconvolve_cube] and
    [arl_restore_cube] take all four images through pointers to non-const,
    [arl_apply_gaintable] its input gain table [gtin], and
    [arl_convert_visibility_to_blockvisibility] its index array [cindexin];
    [arl_advise_wide_field] can write to the visibility it is advised on. *)
Theorem inputs_left_writable :
  outputs proto_arl_deconvolve_cube = [0; 1; 2; 3]%nat
  ∧ outputs proto_arl_restore_cube = [0; 1; 2; 3]%nat
  ∧ f_params proto_arl_apply_gaintable !! 2%nat
    = Some (named "gtin" (io_ptr "ARLGt"))
  ∧ outputs proto_arl_apply_gaintable = [0; 2; 3]%nat
  ∧ f_params proto_arl_convert_visibility_to_blockvisibility !! 3%nat
    = Some (named "cindexin" (TPtr Mutable TLongLong))
  ∧ outputs proto_arl_convert_visibility_to_blockvisibility = [0; 3; 4]%nat
  ∧ outputs proto_arl_advise_wide_field = [0; 1; 2]%nat.
Proof. repeat split. Qed.

(** ** Objects in memory *)

Section MemoryFacts.
Local Open Scope list_scope.

Lemma byte_val_range (b : byte) : 0 ≤ byte_val b < 256.
Proof. unfold byte_val. pose proof (Byte.to_N_bounded b). lia. Qed.

Lemma byte_of_val (b : byte) : byte_of (byte_val b) = b.
Proof.
  unfold byte_of. rewrite Z.mod_small by apply byte_val_range.
  unfold byte_val. by rewrite N2Z.id, Byte.of_to_N.
Qed.

Lemma byte_val_of (z : Z) : byte_val (byte_of z) = z mod 256.
Proof.
  pose proof (Z.mod_pos_bound z 256 ltac:(lia)) as Hm.
  unfold byte_of, byte_val.
  destruct (Byte.of_N (Z.to_N (z mod 256))) as [b|] eqn:H; simpl.
  - apply Byte.to_of_N in H. rewrite H. lia.
  - apply Byte.of_N_None_iff in H. lia.
Qed.

Lemma byte_of_add (b : byte) (x : Z) : byte_of (byte_val b + 256 * x) = b.
Proof.
  rewrite <- (byte_of_val b) at 2. unfold byte_of. f_equal. f_equal. f_equal.
  rewrite Z.mul_comm, Z_mod_plus_full. done.
Qed.

Lemma modulus_S (w : nat) : modulus (S w) = 256 * modulus w.
Proof.
  unfold modulus. replace (8 * Z.of_nat (S w)) with (8 + 8 * Z.of_nat w) by lia.
  rewrite Z.pow_add_r by lia. done.
Qed.

Lemma modulus_pos (w : nat) : 0 < modulus w.
Proof. unfold modulus. apply Z.pow_pos_nonneg; lia. Qed.

Lemma length_le_encode (w : nat) (z : Z) : length (le_encode w z) = w.
Proof. revert z. induction w as [|w IH]; intros z; simpl; [done | by rewrite IH]. Qed.

Lemma le_decode_range (bs : list byte) : 0 ≤ le_decode bs < modulus (length bs).
Proof.
  induction bs as [|b bs IH]; simpl length.
  - unfold modulus. simpl. lia.
  - rewrite modulus_S. simpl. pose proof (byte_val_range b). lia.
Qed.

Lemma le_decode_encode (w : nat) (z : Z) :
  le_decode (le_encode w z) = z mod modulus w.
Proof.
  revert z. induction w as [|w IH]; intros z.
  - unfold modulus. simpl. by rewrite Z.mod_1_r.
  - simpl le_encode. simpl le_decode.
    rewrite IH, byte_val_of, modulus_S.
    pose proof (modulus_pos w).
    rewrite Z.rem_mul_r by lia. done.
Qed.

Lemma le_encode_decode (bs : list byte) :
  le_encode (length bs) (le_decode bs) = bs.
Proof.
  induction bs as [|b bs IH]; simpl; [done|].
  rewrite byte_of_add. f_equal.
  replace ((byte_val b + 256 * le_decode bs) / 256) with (le_decode bs); [done|].
  pose proof (byte_val_range b).
  rewrite Z.mul_comm, Z.div_add by lia.
  rewrite Z.div_small by lia. lia.
Qed.

Lemma to_signed_mod (w : nat) (z : Z) :
  - modulus w ≤ 2 * z < modulus w → to_signed w (z mod modulus w) = z.
Proof.
  intros Hz. pose proof (modulus_pos w) as HM. unfold to_signed.
  destruct (decide (0 ≤ z)) as [Hpos|Hneg].
  - rewrite Z.mod_small by lia. rewrite bool_decide_eq_true_2 by lia. done.
  - replace (z mod modulus w) with (z + modulus w).
    + rewrite bool_decide_eq_false_2 by lia. lia.
    + apply (Z.mod_unique _ _ (-1)); lia.
Qed.

Lemma to_signed_range (w : nat) (u : Z) :
  0 ≤ u < modulus w →
  - modulus w ≤ 2 * to_signed w u < modulus w
  ∧ to_signed w u mod modulus w = u.
Proof.
  intros Hu. unfold to_signed. case_bool_decide.
  - split; [lia|]. by rewrite Z.mod_small by lia.
  - split; [lia|]. symmetry. apply (Z.mod_unique _ _ (-1)); lia.
Qed.

Lemma read_write_scalar t w v bs :
  write_scalar t w v = Some bs → read_scalar t w bs = Some v.
Proof.
  unfold write_scalar, read_scalar, in_range.
  destruct v as [z|vs]; [|done].
  destruct (signed t); case_bool_decide as Hr; intros ?; simplify_eq;
    rewrite length_le_encode, bool_decide_eq_true_2 by done;
    rewrite le_decode_encode, Z.mod_mod by (pose proof (modulus_pos w); lia).
  - by rewrite to_signed_mod.
  - by rewrite Z.mod_small.
Qed.

Lemma write_read_scalar t w bs v :
  read_scalar t w bs = Some v → write_scalar t w v = Some bs.
Proof.
  unfold write_scalar, read_scalar, in_range.
  case_bool_decide as Hlen; [|done]. intros ?; simplify_eq.
  pose proof (le_decode_range bs) as Hr.
  destruct (signed t).
  - destruct (to_signed_range _ _ Hr) as [Hs Hm].
    rewrite bool_decide_eq_true_2, Hm by done.
    by rewrite le_encode_decode.
  - rewrite bool_decide_eq_true_2 by done.
    rewrite Z.mod_small by done. by rewrite le_encode_decode.
Qed.

Lemma length_write_scalar t w v bs :
  write_scalar t w v = Some bs → length bs = w.
Proof.
  unfold write_scalar. destruct v; [|done].
  destruct (in_range t w z); [|done]. intros ?; simplify_eq.
  apply length_le_encode.
Qed.

Lemma length_chunks (n s : nat) (bs : list byte) : length (chunks n s bs) = n.
Proof. revert bs. induction n as [|n IH]; intros bs; simpl; [done | by rewrite IH]. Qed.

Lemma chunks_join (n s : nat) (bs : list byte) :
  length bs = (n * s)%nat → mjoin (chunks n s bs) = bs.
Proof.
  revert bs. induction n as [|n IH]; intros bs Hlen; simpl.
  - by destruct bs.
  - rewrite IH by (rewrite length_drop; lia). apply take_drop.
Qed.

Lemma chunks_lengths (n s : nat) (bs : list byte) :
  length bs = (n * s)%nat → Forall (λ c, length c = s) (chunks n s bs).
Proof.
  revert bs. induction n as [|n IH]; intros bs Hlen; simpl; constructor.
  - rewrite length_take. lia.
  - apply IH. rewrite length_drop. lia.
Qed.

Lemma chunks_of_join (s : nat) (bss : list (list byte)) :
  Forall (λ c, length c = s) bss → chunks (length bss) s (mjoin bss) = bss.
Proof.
  induction 1 as [|c bss Hc _ IH]; simpl; [done|].
  rewrite take_app_length', drop_app_length' by done. by rewrite IH.
Qed.

Lemma length_join_chunks (s : nat) (bss : list (list byte)) :
  Forall (λ c, length c = s) bss → length (mjoin bss) = (length bss * s)%nat.
Proof.
  induction 1 as [|c bss Hc _ IH]; simpl; [done|].
  rewrite length_app. lia.
Qed.

Lemma scalar_width_sizeof (t : ctype) (w : nat) :
  scalar_width t = Some w → sizeof t = Some (Z.of_nat w).
Proof. destruct t; simpl; intros ?; by simplify_eq. Qed.

(** An encoded object takes [sizeof t] bytes. *)
Lemma length_write_object (t : ctype) :
  ∀ v bs, write_object t v = Some bs → sizeof t = Some (Z.of_nat (length bs)).
Proof.
  induction t as [| | | | | | | | | |q t IH|t IH n]; intros v bs H; simpl in H;
    try done;
    try (apply length_write_scalar in H; simpl; by rewrite H).
  - destruct v as [z|[|r [|i [|? ?]]]]; try done.
    destruct (write_scalar TFloat 4 r) as [a|] eqn:Ha; [|done].
    destruct (write_scalar TFloat 4 i) as [b|] eqn:Hb; [|done].
    simpl in H. simplify_eq.
    apply length_write_scalar in Ha, Hb. rewrite length_app, Ha, Hb. done.
  - destruct (sizeof t) as [s|] eqn:Hs; [|done]. simpl in H.
    destruct v as [|vs]; [done|].
    case_bool_decide as Hn; [|done].
    destruct (mapM (write_object t) vs) as [bss|] eqn:Hm; [|done].
    simpl in H. simplify_eq. simpl. rewrite Hs. simpl. f_equal.
    apply mapM_Some_1 in Hm.
    assert (Hall : Forall (λ c, length c = Z.to_nat s) bss).
    { apply Forall_forall. intros c Hc.
      apply list_elem_of_lookup in Hc as [k Hk].
      destruct (Forall2_lookup_r _ _ _ _ _ Hm Hk) as (v & _ & Hv).
      apply IH in Hv. simplify_eq. lia. }
    rewrite (length_join_chunks _ _ Hall).
    rewrite <- (Forall2_length _ _ _ Hm).
    destruct bss as [|c bss].
    + apply Forall2_nil_inv_r in Hm as ->. simpl. lia.
    + apply Forall_cons in Hall as [Hc _].
      apply Forall2_cons_inv_r in Hm as (v & vs' & Hv & _ & ->).
      apply IH in Hv. simplify_eq. simpl length. lia.
Qed.

Lemma read_write_object (t : ctype) :
  ∀ v bs, write_object t v = Some bs → read_object t bs = Some v.
Proof.
  induction t as [| | | | | | | | | |q t IH|t IH n]; intros v bs H;
    pose proof (length_write_object _ _ _ H) as Hlen;
    simpl in H; try done;
    try (simpl; by apply read_write_scalar).
  - destruct v as [z|[|r [|i [|? ?]]]]; try done.
    destruct (write_scalar TFloat 4 r) as [a|] eqn:Ha; [|done].
    destruct (write_scalar TFloat 4 i) as [b|] eqn:Hb; [|done].
    simpl in H. simplify_eq. simpl.
    pose proof (length_write_scalar _ _ _ _ Ha) as Hla.
    pose proof (length_write_scalar _ _ _ _ Hb) as Hlb.
    rewrite bool_decide_eq_true_2 by (rewrite length_app; lia).
    rewrite take_app_length', drop_app_length' by done.
    by rewrite (read_write_scalar _ _ _ _ Ha),
               (read_write_scalar _ _ _ _ Hb).
  - simpl in Hlen.
    destruct (sizeof t) as [s|] eqn:Hs; [|done]. simpl in H, Hlen.
    destruct v as [|vs]; [done|].
    case_bool_decide as Hn; [|done].
    destruct (mapM (write_object t) vs) as [bss|] eqn:Hm; [|done].
    simpl in H. simplify_eq. simpl. rewrite Hs. simpl.
    rewrite bool_decide_eq_true_2 by lia.
    apply mapM_Some_1 in Hm.
    assert (Hall : Forall (λ c, length c = Z.to_nat s) bss).
    { apply Forall_forall. intros c Hc.
      apply list_elem_of_lookup in Hc as [k Hk].
      destruct (Forall2_lookup_r _ _ _ _ _ Hm Hk) as (v & _ & Hv).
      apply length_write_object in Hv. simplify_eq. lia. }
    rewrite (Forall2_length _ _ _ Hm), chunks_of_join by done.
    replace (mapM (read_object t) bss) with (Some vs); [done|].
    symmetry. apply mapM_Some_2. apply Forall2_flip.
    eapply Forall2_impl; [exact Hm|]. simpl. intros v c. apply IH.
Qed.

Lemma write_read_object (t : ctype) :
  ∀ bs v, read_object t bs = Some v → write_object t v = Some bs.
Proof.
  induction t as [| | | | | | | | | |q t IH|t IH n]; intros bs v H;
    simpl in H; try done;
    try (simpl; by apply write_read_scalar).
  - case_bool_decide as Hlen; [|done].
    destruct (read_scalar TFloat 4 (take 4 bs)) as [r|] eqn:Hr; [|done].
    destruct (read_scalar TFloat 4 (drop 4 bs)) as [i|] eqn:Hi; [|done].
    simpl in H. simplify_eq. simpl.
    rewrite (write_read_scalar _ _ _ _ Hr),
            (write_read_scalar _ _ _ _ Hi). simpl.
    by rewrite take_drop.
  - destruct (sizeof t) as [s|] eqn:Hs; [|done]. simpl in H.
    case_bool_decide as Hlen; [|done].
    destruct (mapM (read_object t) (chunks n (Z.to_nat s) bs)) as [vs|] eqn:Hm;
      [|done].
    simpl in H. simplify_eq. simpl. rewrite Hs. simpl.
    apply mapM_Some_1 in Hm.
    rewrite bool_decide_eq_true_2
      by (by rewrite <- (Forall2_length _ _ _ Hm), length_chunks).
    replace (mapM (write_object t) vs) with (Some (chunks n (Z.to_nat s) bs)).
    + simpl. f_equal. apply chunks_join.
      pose proof (sizeof_nonneg _ _ Hs). nia.
    + symmetry. apply mapM_Some_2. apply Forall2_flip.
      eapply Forall2_impl; [exact Hm|]. simpl. intros c v. apply IH.
Qed.

(** Every string of [sizeof t] bytes is an object of type [t]. *)
Lemma read_object_total (t : ctype) :
  ∀ bs, sizeof t = Some (Z.of_nat (length bs)) → is_Some (read_object t bs).
Proof.
  induction t as [| | | | | | | | | |q t IH|t IH n]; intros bs H;
    simpl in H; try done;
    try (simpl; unfold read_scalar;
         rewrite bool_decide_eq_true_2 by (simplify_eq; lia); by eexists).
  - simpl. rewrite bool_decide_eq_true_2 by (simplify_eq; lia).
    unfold read_scalar.
    rewrite !bool_decide_eq_true_2
      by (rewrite ?length_take, ?length_drop; simplify_eq; lia).
    by eexists.
  - destruct (sizeof t) as [s|] eqn:Hs; [|done]. simpl in H. simplify_eq.
    simpl. rewrite Hs. simpl.
    rewrite bool_decide_eq_true_2 by lia.
    pose proof (sizeof_nonneg _ _ Hs).
    assert (Hm : is_Some (mapM (read_object t) (chunks n (Z.to_nat s) bs))).
    { apply mapM_is_Some_2.
      eapply Forall_impl; [apply (chunks_lengths n (Z.to_nat s)); nia|].
      simpl. intros c Hc. apply IH. f_equal. lia. }
    destruct Hm as [vs ->]. by eexists.
Qed.

Lemma length_zeros (n : Z) : length (zeros n) = Z.to_nat n.
Proof. unfold zeros. apply length_replicate. Qed.

Lemma read_object_length (t : ctype) (bs : list byte) (v : cvalue) :
  read_object t bs = Some v → sizeof t = Some (Z.of_nat (length bs)).
Proof. intros H. eapply length_write_object. by apply write_read_object. Qed.

Lemma place_align_pos (fs : list field) :
  ∀ off al ps e al', place off al fs = Some (ps, e, al') → 0 < al → 0 < al'.
Proof.
  induction fs as [|f fs IH]; intros off al ps e al' H Hal; simpl in H.
  - by simplify_eq.
  - destruct (sizeof (fld_type f)) as [sz|]; [|done].
    destruct (alignof (fld_type f)) as [a|] eqn:Ha; [|done].
    simpl in H.
    destruct (place (align_up off a + sz) (Z.max al a) fs)
      as [[[ps0 e0] al0]|] eqn:Hp; [|done].
    simpl in H. simplify_eq. eapply IH; [exact Hp | lia].
Qed.

(** The fields fill at most the bytes between the start and the end of the
    placement. *)
Lemma place_sum_le (fs : list field) :
  ∀ off al ps e al',
    place off al fs = Some (ps, e, al') → off + sum_sizes ps ≤ e.
Proof.
  induction fs as [|f fs IH]; intros off al ps e al' H; simpl in H.
  - simplify_eq. simpl. lia.
  - destruct (sizeof (fld_type f)) as [sz|] eqn:Hsz; [|done].
    destruct (alignof (fld_type f)) as [a|] eqn:Ha; [|done].
    simpl in H.
    destruct (place (align_up off a + sz) (Z.max al a) fs)
      as [[[ps0 e0] al0]|] eqn:Hp; [|done].
    simpl in H. simplify_eq. simpl.
    pose proof (IH _ _ _ _ _ Hp).
    pose proof (align_up_bounds off a (alignof_pos _ _ Ha)). lia.
Qed.

(** Storing the fields follows the placement. *)
Lemma write_fields_place (fs : list field) :
  ∀ off al vs out e,
    write_fields off fs vs = Some (out, e) →
    ∃ ps al', place off al fs = Some (ps, e, al').
Proof.
  induction fs as [|f fs IH]; intros off al vs out e H; simpl in H.
  - destruct vs; [|done]. simplify_eq. simpl. eauto.
  - destruct vs as [|v vs]; [done|].
    destruct (sizeof (fld_type f)) as [sz|] eqn:Hsz; [|done].
    destruct (alignof (fld_type f)) as [a|] eqn:Ha; [|done].
    simpl in H.
    destruct (write_object (fld_type f) v) as [b|]; [|done]. simpl in H.
    destruct (write_fields (align_up off a + sz) fs vs)
      as [[rest e0]|] eqn:He; [|done].
    simpl in H. simplify_eq.
    destruct (IH _ (Z.max al a) _ _ _ He) as (ps & al' & Hp).
    simpl. rewrite Hsz, Ha. simpl. rewrite Hp. simpl. eauto.
Qed.

(** Reading back what was stored, wherever the stored bytes lie. *)
Lemma read_write_fields (fs : list field) :
  ∀ off vs out e (pre suf : list byte),
    0 ≤ off → Z.of_nat (length pre) = off →
    write_fields off fs vs = Some (out, e) →
    read_fields off fs (pre ++ out ++ suf) = Some vs
    ∧ Z.of_nat (length out) = e - off.
Proof.
  induction fs as [|f fs IH]; intros off vs out e pre suf Hoff Hpre H;
    simpl in H.
  - destruct vs; [|done]. simplify_eq. simpl. split; [done | lia].
  - destruct vs as [|v vs]; [done|].
    destruct (sizeof (fld_type f)) as [sz|] eqn:Hsz; [|done].
    destruct (alignof (fld_type f)) as [a|] eqn:Ha; [|done].
    simpl in H.
    destruct (write_object (fld_type f) v) as [b|] eqn:Hb; [|done]. simpl in H.
    destruct (write_fields (align_up off a + sz) fs vs)
      as [[rest e0]|] eqn:He; [|done].
    simpl in H. simplify_eq.
    pose proof (align_up_bounds (Z.of_nat (length pre)) a
                  (alignof_pos _ _ Ha)) as Hb1.
    pose proof (length_write_object _ _ _ Hb) as Hlb. rewrite Hsz in Hlb.
    simplify_eq.
    set (o := align_up (Z.of_nat (length pre)) a) in *.
    set (gap := zeros (o - Z.of_nat (length pre))).
    assert (Hgap : length (pre ++ gap) = Z.to_nat o).
    { rewrite length_app. unfold gap. rewrite length_zeros. lia. }
    destruct (IH (o + Z.of_nat (length b)) vs rest e ((pre ++ gap) ++ b) suf)
      as [Hdec Hlen]; [lia | rewrite length_app; lia | done |].
    simpl. rewrite Hsz, Ha. simpl. fold o.
    replace (pre ++ (gap ++ b ++ rest) ++ suf)
      with ((pre ++ gap) ++ b ++ rest ++ suf)
      by (by rewrite <- !(assoc_L (++))).
    rewrite drop_app_length' by done.
    rewrite Nat2Z.id, take_app_length.
    rewrite (read_write_object _ _ _ Hb). simpl.
    replace ((pre ++ gap) ++ b ++ rest ++ suf)
      with (((pre ++ gap) ++ b) ++ rest ++ suf)
      by (by rewrite <- !(assoc_L (++))).
    rewrite Hdec. simpl. split; [done|].
    rewrite !length_app. unfold gap. rewrite length_zeros. lia.
Qed.

(** Every string of bytes that reaches the end of the placement holds the
    fields. *)
Lemma read_fields_total (fs : list field) :
  ∀ off al ps e al' (bs : list byte),
    0 ≤ off → place off al fs = Some (ps, e, al') →
    e ≤ Z.of_nat (length bs) →
    is_Some (read_fields off fs bs).
Proof.
  induction fs as [|f fs IH]; intros off al ps e al' bs Hoff H Hlen;
    simpl in H; simpl.
  - by eexists.
  - destruct (sizeof (fld_type f)) as [sz|] eqn:Hsz; [|done].
    destruct (alignof (fld_type f)) as [a|] eqn:Ha; [|done].
    simpl in H. simpl.
    destruct (place (align_up off a + sz) (Z.max al a) fs)
      as [[[ps0 e0] al0]|] eqn:Hp; [|done].
    simpl in H. simplify_eq.
    pose proof (align_up_bounds off a (alignof_pos _ _ Ha)) as Hb.
    pose proof (sizeof_nonneg _ _ Hsz) as Hs.
    destruct (place_in_order _ _ _ _ _ _ Hp) as [Hle _].
    set (o := align_up off a) in *. clearbody o.
    destruct (read_object_total (fld_type f)
                (take (Z.to_nat sz) (drop (Z.to_nat o) bs))) as [v Hv].
    { rewrite Hsz. f_equal. rewrite length_take, length_drop. lia. }
    rewrite Hv. simpl.
    assert (Hstart : 0 ≤ o + sz) by lia.
    destruct (IH _ _ _ _ _ bs Hstart Hp Hlen) as [vs Hvs].
    rewrite Hvs. by eexists.
Qed.

(** Where the fields leave no gap, storing what was read gives back the bytes
    that were read. *)
Lemma write_read_fields (fs : list field) :
  ∀ off al ps e al' (bs : list byte) vs,
    0 ≤ off → place off al fs = Some (ps, e, al') →
    e ≤ off + sum_sizes ps → e ≤ Z.of_nat (length bs) →
    read_fields off fs bs = Some vs →
    write_fields off fs vs
    = Some (take (Z.to_nat (e - off)) (drop (Z.to_nat off) bs), e).
Proof.
  induction fs as [|f fs IH]; intros off al ps e al' bs vs Hoff H;
    simpl in H.
  - simplify_eq. simpl. intros _ _ ?. simplify_eq. simpl.
    by rewrite Z.sub_diag.
  - destruct (sizeof (fld_type f)) as [sz|] eqn:Hsz; [|done].
    destruct (alignof (fld_type f)) as [a|] eqn:Ha; [|done].
    simpl in H.
    destruct (place (align_up off a + sz) (Z.max al a) fs)
      as [[[ps0 e0] al0]|] eqn:Hp; [|done].
    simpl in H. simplify_eq. intros Hsum Hlen Hd.
    change (e ≤ off + (sz + sum_sizes ps0)) in Hsum.
    simpl in Hd. rewrite Hsz, Ha in Hd. simpl in Hd.
    pose proof (align_up_bounds off a (alignof_pos _ _ Ha)) as Hb.
    pose proof (sizeof_nonneg _ _ Hsz) as Hs.
    pose proof (place_sum_le _ _ _ _ _ _ Hp) as Hps.
    destruct (place_in_order _ _ _ _ _ _ Hp) as [Hle _].
    assert (Ho : align_up off a = off) by lia.
    rewrite Ho in *.
    destruct (read_object (fld_type f) (take (Z.to_nat sz) (drop (Z.to_nat off) bs)))
      as [v|] eqn:Hv; [|done]. simpl in Hd.
    destruct (read_fields (off + sz) fs bs) as [vs'|] eqn:Hvs; [|done].
    simpl in Hd. simplify_eq.
    simpl. rewrite Hsz, Ha. simpl. rewrite Ho.
    rewrite (write_read_object _ _ _ Hv). simpl.
    assert (Hstart : 0 ≤ off + sz) by lia.
    assert (Hend : e ≤ off + sz + sum_sizes ps0) by lia.
    rewrite (IH _ _ _ _ _ bs vs' Hstart Hp Hend Hlen Hvs). simpl.
    f_equal. f_equal.
    rewrite Z.sub_diag. unfold zeros. simpl.
    replace (Z.to_nat (off + sz)) with (Z.to_nat off + Z.to_nat sz)%nat by lia.
    rewrite <- drop_drop, take_take_drop. f_equal. lia.
Qed.

Lemma struct_size_place (s : struct_decl) (sz : Z) :
  struct_size s = Some sz →
  ∃ ps e al, place 0 1 (s_fields s) = Some (ps, e, al)
             ∧ sz = align_up e al ∧ 0 < al ∧ 0 ≤ e ≤ sz
             ∧ padding s = Some (sz - sum_sizes ps).
Proof.
  unfold struct_size, padding, struct_layout. intros H.
  destruct (place 0 1 (s_fields s)) as [[[ps e] al]|] eqn:Hp; [|done].
  simpl in *. simplify_eq.
  pose proof (place_align_pos _ _ _ _ _ _ Hp ltac:(lia)) as Hal.
  destruct (place_in_order _ _ _ _ _ _ Hp) as [He _].
  pose proof (align_up_bounds e al Hal).
  exists ps, e, al. repeat split; try done; lia.
Qed.

(** X11. Storing the field values of a structure and reading the bytes back
    gives the same values, and the stored bytes take exactly the size of the
    structure; this holds with padding ([ARLVis], [ARLConf], [ARLadvice]) as
    without. *)
Theorem stored_struct_reads_back (s : struct_decl) (vs : list cvalue)
    (bs : list byte) :
  write_struct s vs = Some bs →
  read_struct s bs = Some vs
  ∧ struct_size s = Some (Z.of_nat (length bs)).
Proof.
  unfold write_struct, read_struct. intros H.
  destruct (struct_size s) as [sz|] eqn:Hsz; [|done]. simpl in H.
  destruct (write_fields 0 (s_fields s) vs) as [[out e]|] eqn:He; [|done].
  simpl in H. simplify_eq.
  destruct (struct_size_place _ _ Hsz) as (ps & e' & al & Hp & -> & Hal & Hle & _).
  destruct (write_fields_place _ _ 1 _ _ _ He) as (ps' & al' & Hp').
  rewrite Hp in Hp'. simplify_eq.
  destruct (read_write_fields _ 0 vs out e [] (zeros (align_up e al' - e))
              ltac:(lia) eq_refl He) as [Hd Hlen].
  simpl in Hd.
  assert (Hl : Z.of_nat (length (out ++ zeros (align_up e al' - e)))
               = align_up e al')
    by (rewrite length_app, length_zeros; lia).
  simpl. rewrite bool_decide_eq_true_2 by done.
  split; [done | by rewrite Hl].
Qed.

(** In a structure without padding every byte belongs to a field: any string
    of bytes of the structure's size holds field values, and storing them
    gives the same bytes back. *)
Lemma packed_struct_round_trip (s : struct_decl) (bs : list byte) :
  padding s = Some 0 →
  struct_size s = Some (Z.of_nat (length bs)) →
  ∃ vs, read_struct s bs = Some vs ∧ write_struct s vs = Some bs.
Proof.
  intros Hpad Hsz.
  destruct (struct_size_place _ _ Hsz) as (ps & e & al & Hp & Hal & Hpos & Hle & Hpad').
  rewrite Hpad in Hpad'. simplify_eq.
  pose proof (place_sum_le _ _ _ _ _ _ Hp) as Hsum.
  assert (He : e = Z.of_nat (length bs)) by lia.
  destruct (read_fields_total _ 0 1 ps e al bs ltac:(lia) Hp ltac:(lia))
    as [vs Hvs].
  exists vs. unfold read_struct, write_struct. rewrite Hsz. simpl.
  rewrite bool_decide_eq_true_2 by done. split; [done|].
  rewrite (write_read_fields _ 0 1 ps e al bs vs); try done; try lia.
  simpl. rewrite Z.sub_0_r, He, Z.sub_diag, Nat2Z.id, drop_0, take_ge by done.
  unfold zeros. simpl. by rewrite app_nil_r.
Qed.

Lemma read_struct_total (s : struct_decl) (bs : list byte) :
  struct_size s = Some (Z.of_nat (length bs)) → is_Some (read_struct s bs).
Proof.
  intros Hsz.
  destruct (struct_size_place _ _ Hsz) as (ps & e & al & Hp & _ & _ & Hle & _).
  unfold read_struct. rewrite Hsz. simpl.
  rewrite bool_decide_eq_true_2 by done.
  eapply read_fields_total; [|exact Hp|]; lia.
Qed.

(** The same for a buffer of [n] records one after the other. *)
Lemma packed_buffer_round_trip (s : struct_decl) (n : nat) (sz : Z)
    (bs : list byte) :
  padding s = Some 0 →
  struct_size s = Some sz →
  Z.of_nat (length bs) = sz * Z.of_nat n →
  ∃ rs, read_buffer s n bs = Some rs
        ∧ length rs = n
        ∧ write_buffer s rs = Some bs.
Proof.
  intros Hpad Hsz Hlen.
  destruct (struct_size_place _ _ Hsz) as (_ & e & _ & _ & _ & _ & Hpos & _).
  assert (Hl : length bs = (n * Z.to_nat sz)%nat) by nia.
  pose proof (chunks_lengths _ _ _ Hl) as Hchunks.
  assert (Hall : Forall2 (λ c r, read_struct s c = Some r
                                 ∧ write_struct s r = Some c)
                   (chunks n (Z.to_nat sz) bs)
                   (omap (read_struct s) (chunks n (Z.to_nat sz) bs))).
  { induction Hchunks as [|c cs Hc _ IH]; simpl; [constructor|].
    destruct (packed_struct_round_trip s c Hpad) as (r & Hd & He).
    { rewrite Hsz. f_equal. lia. }
    rewrite Hd. by constructor. }
  exists (omap (read_struct s) (chunks n (Z.to_nat sz) bs)).
  unfold read_buffer, write_buffer. rewrite Hsz. simpl.
  rewrite bool_decide_eq_true_2 by done.
  split; [|split].
  - apply mapM_Some_2. eapply Forall2_impl; [exact Hall|]. by intros ?? [? ?].
  - by rewrite <- (Forall2_length _ _ _ Hall), length_chunks.
  - replace (mapM (write_struct s) _) with (Some (chunks n (Z.to_nat sz) bs)).
    + simpl. f_equal. by apply chunks_join.
    + symmetry. apply mapM_Some_2. apply Forall2_flip.
      eapply Forall2_impl; [exact Hall|]. by intros ?? [? ?].
Qed.

Lemma slice_app (bs pre x suf : list byte) (n m : nat) :
  bs = pre ++ x ++ suf → length pre = n → length x = m →
  take m (drop n bs) = x.
Proof.
  intros -> Hn Hm. by rewrite drop_app_length', take_app_length'.
Qed.

Lemma read_scalar_exact (t : ctype) (w : nat) (bs : list byte) :
  length bs = w →
  read_scalar t w bs
  = Some (VInt (if signed t then to_signed w (le_decode bs)
                else le_decode bs)).
Proof. intros H. unfold read_scalar. by rewrite bool_decide_eq_true_2. Qed.

(** X14. The 32 bytes of an [ARLVis] are [nvis] (8 bytes, unsigned), [npol]
    (4 bytes, two's complement), 4 bytes of padding that reading ignores,
    then the [data] and [phasecentre] pointers (8 bytes each). *)
Theorem ARLVis_fields_of_bytes (b_nvis b_npol pad b_data b_pc : list byte) :
  length b_nvis = 8%nat → length b_npol = 4%nat → length pad = 4%nat →
  length b_data = 8%nat → length b_pc = 8%nat →
  read_struct struct_ARLVis (b_nvis ++ b_npol ++ pad ++ b_data ++ b_pc)
  = Some [ VInt (le_decode b_nvis);
           VInt (to_signed 4 (le_decode b_npol));
           VInt (le_decode b_data);
           VInt (le_decode b_pc) ].
Proof.
  intros H1 H2 H3 H4 H5.
  set (bs := b_nvis ++ b_npol ++ pad ++ b_data ++ b_pc).
  unfold read_struct.
  change (struct_size struct_ARLVis) with (Some 32). simpl mbind.
  rewrite bool_decide_eq_true_2
    by (unfold bs; rewrite !length_app; lia).
  cbn -[take drop]. compute_offsets.
  rewrite (slice_app bs [] b_nvis (b_npol ++ pad ++ b_data ++ b_pc) 0 8)
    by done.
  rewrite (slice_app bs b_nvis b_npol (pad ++ b_data ++ b_pc) 8 4) by done.
  rewrite (slice_app bs (b_nvis ++ b_npol ++ pad) b_data b_pc 16 8)
    by (try done; unfold bs; rewrite <- ?(assoc_L (++)), ?length_app;
        (done || lia)).
  rewrite (slice_app bs (b_nvis ++ b_npol ++ pad ++ b_data) b_pc [] 24 8)
    by (try done; unfold bs; rewrite <- ?(assoc_L (++)), ?length_app,
          ?app_nil_r; (done || lia)).
  rewrite !read_scalar_exact by done. done.
Qed.

Lemma ARLVis_fields_of_bytes_witness :
  read_struct struct_ARLVis
    (sample_nvis ++ sample_npol ++ sample_pad ++ sample_data ++ sample_pc)
  = Some [ VInt (le_decode sample_nvis);
           VInt (to_signed 4 (le_decode sample_npol));
           VInt (le_decode sample_data);
           VInt (le_decode sample_pc) ].
Proof.
  apply (ARLVis_fields_of_bytes
           sample_nvis sample_npol sample_pad sample_data sample_pc);
    reflexivity.
Defined.

Example ARLVis_sample_values :
  read_struct struct_ARLVis
    (sample_nvis ++ sample_npol ++ sample_pad ++ sample_data ++ sample_pc)
  = Some [VInt 2; VInt 4; VInt 6295552; VInt 6299648]
  ∧ read_struct struct_ARLVis (sample_nvis ++ sample_npol) = None
  ∧ write_struct struct_ant_t [VInt 3; VInt (-1)]
    = Some (le_encode 4 3 ++ replicate 4 Byte.xff)
  ∧ write_struct struct_ant_t [VInt 3; VInt (2 ^ 31)] = None
  ∧ write_struct struct_ant_t [VInt 3] = None.
Proof. repeat split; vm_compute; reflexivity. Qed.

Lemma stored_struct_reads_back_witness :
  read_struct struct_ARLConf
    (default [] (write_struct struct_ARLConf (VInt <$> seq_conf_values)))
  = Some (VInt <$> seq_conf_values)
  ∧ struct_size struct_ARLConf
    = Some (Z.of_nat (length (default []
              (write_struct struct_ARLConf (VInt <$> seq_conf_values))))).
Proof.
  apply (stored_struct_reads_back struct_ARLConf (VInt <$> seq_conf_values)).
  vm_compute. reflexivity.
Defined.

(** X12. [ARLVisEntryP4], [Image], [ARLGt] and [ant_t] have no padding, so
    for each of them every string of bytes of the structure's size holds
    field values, with no byte pattern refused, and storing the values read
    gives the bytes back unchanged. *)
Theorem header_packed_structs_round_trip (s : struct_decl) (bs : list byte) :
  s ∈ [struct_ARLVisEntryP4; struct_Image; struct_ARLGt; struct_ant_t] →
  struct_size s = Some (Z.of_nat (length bs)) →
  ∃ vs, read_struct s bs = Some vs ∧ write_struct s vs = Some bs.
Proof.
  intros Hs. apply packed_struct_round_trip.
  repeat (apply elem_of_cons in Hs as [->|Hs]; [vm_compute; reflexivity|]).
  by apply elem_of_nil in Hs.
Qed.

Lemma header_packed_structs_round_trip_witness :
  ∃ vs, read_struct struct_ant_t (le_encode 4 3 ++ le_encode 4 3) = Some vs
        ∧ write_struct struct_ant_t vs
          = Some (le_encode 4 3 ++ le_encode 4 3).
Proof.
  apply (header_packed_structs_round_trip
           struct_ant_t (le_encode 4 3 ++ le_encode 4 3)).
  - do 3 apply list_elem_of_further. apply list_elem_of_here.
  - reflexivity.
Defined.

(** X13. The buffer of an [ARLVis] with four polarisations read as
    [ARLVisEntryP4[nvis]]: any [128 * nvis] bytes are [nvis] records, and
    storing the records one after the other gives the same bytes, so the
    buffer and the array of records carry the same information. *)
Theorem visibility_buffer_round_trip (n : nat) (bs : list byte) :
  Z.of_nat (length bs) = 128 * Z.of_nat n →
  ∃ rs, read_buffer struct_ARLVisEntryP4 n bs = Some rs
        ∧ length rs = n
        ∧ write_buffer struct_ARLVisEntryP4 rs = Some bs.
Proof.
  intros Hlen.
  apply (packed_buffer_round_trip struct_ARLVisEntryP4 n 128 bs);
    [vm_compute; reflexivity | vm_compute; reflexivity | done].
Qed.

Lemma visibility_buffer_round_trip_witness :
  ∃ rs, read_buffer struct_ARLVisEntryP4 2 (le_encode 256 (2 ^ 2000 + 7))
        = Some rs
        ∧ length rs = 2%nat
        ∧ write_buffer struct_ARLVisEntryP4 rs
          = Some (le_encode 256 (2 ^ 2000 + 7)).
Proof.
  apply (visibility_buffer_round_trip 2 (le_encode 256 (2 ^ 2000 + 7))).
  vm_compute. reflexivity.
Defined.

End MemoryFacts.
